(** * lockedfile: locked file handles, their lifecycle and whole-file helpers

    A shallow embedding of [cmd/go/_internal_/lockedfile/lockedfile.go].

    The Go package wraps a platform primitive ([openFile] / [closeFile],
    which open a descriptor and take an advisory lock, and unlock and close
    it again) in a handle type [File] with a [closed] flag, arms a runtime
    finalizer on every handle it hands out, and builds [Read] and [Write]
    on top of that.

    Layout of the development:
    - [Errors], [Flags]: Go error values with [errors.Is], and the
      [os.O_*] open flags;
    - [Platform]: the interface of what lies below the package, and the
      contract of its two primitives;
    - [World]: the Go heap of [File] objects, the finalizer table of the
      runtime, the state of the platform, and a ghost history of the
      calls of the primitives;
    - the package itself: [OpenFile], [Open], [Create], [Edit], [Close],
      [Read], [Write];
    - [SpecFS]: an executable file system with advisory locks that
      implements [Platform];
    - [Op], [run], [Step]: the calls a client can make, as a transition
      system;
    - the lemmas and the theorems. *)

From Stdlib Require Import ZArith String List Strings.Byte.
From stdpp Require Import base option gmap strings list fin_maps.

Local Open Scope Z_scope.

(* ===================================================================== *)
(** ** Go errors *)
(* ===================================================================== *)

Module Errors.

(** The error values that occur. The first four are the sentinels of
    package [os]; [Errno] is a [syscall.Errno]; [PathError] is
    [os.PathError], which wraps another error. *)
Inductive error : Type :=
| ErrInvalid
| ErrPermission
| ErrNotExist
| ErrClosed
| Errno (n : Z)
| ErrorString (s : string)
| PathError (Op Path : string) (Err : error).

#[global] Instance error_eq_dec : EqDecision error.
Proof. solve_decision. Defined.

(** The [Unwrap] method of [PathError] returns [Err]; nothing else here wraps. *)
Definition Unwrap (e : error) : option error :=
  match e with
  | PathError _ _ inner => Some inner
  | _ => None
  end.

(** The [Is] method of [syscall.Errno]: an error number answers for the
    sentinel of its kind. *)
Definition Errno_Is (n : Z) (target : error) : bool :=
  match target with
  | ErrPermission => Z.eqb n 13 || Z.eqb n 1
  | ErrNotExist => Z.eqb n 2
  | _ => false
  end.

(** [errors.Is(err, target)]: walk the [Unwrap] chain of [err]; a link
    matches when it equals [target] or when its [Is] method says so.
    Errors are compared by value here; the targets of interest are the
    sentinels. *)
Fixpoint errors_Is (err target : error) : bool :=
  bool_decide (err = target) ||
  match err with
  | Errno n => Errno_Is n target
  | PathError _ _ inner => errors_Is inner target
  | _ => false
  end.

(** [os.underlyingError], on which the older predicates of package [os]
    ([os.IsNotExist] and the like) are built: one layer of [PathError]
    is stripped. *)
Definition underlyingError (e : error) : error :=
  match e with
  | PathError _ _ inner => inner
  | _ => e
  end.

(** What [Close] of [os.File] answers on a descriptor that has been closed
    before: the generic closed-descriptor error. *)
Definition os_closed_error (path : string) : error :=
  PathError "close" path ErrClosed.

End Errors.
Export Errors.

(* ===================================================================== *)
(** ** Open flags *)
(* ===================================================================== *)

Module Flags.

(** The values of [os.O_*] ([syscall.O_*] on Linux). *)
Definition O_RDONLY : Z := 0.
Definition O_WRONLY : Z := 1.
Definition O_RDWR   : Z := 2.
Definition O_CREATE : Z := 64.
Definition O_TRUNC  : Z := 512.

(** Permission bits are an [os.FileMode]; [0666] is octal. *)
Definition FileMode := Z.
Definition perm_0666 : FileMode := 438.

Definition has_flag (bit flag : Z) : bool := negb (Z.eqb (Z.land flag bit) 0).

(** The access mode is the low two bits. *)
Definition access_mode (flag : Z) : Z := Z.land flag 3.

(** Write access is requested by [O_WRONLY] or [O_RDWR]. *)
Definition wants_write (flag : Z) : bool :=
  negb (Z.eqb (Z.land flag (Z.lor O_WRONLY O_RDWR)) 0).

End Flags.
Export Flags.

(* ===================================================================== *)
(** ** What lies below the package *)
(* ===================================================================== *)

(** An [io.Reader] that is read to its end: it yields [r_data] and then
    reports end of file ([r_err = None]) or fails with [r_err]. This is a
    reader that is not nil and whose [Read] returns; a content source
    that panics is not a [Reader], and what is proved of [Write] is about
    calls of it that return. *)
Record Reader := mkReader { r_data : list byte; r_err : option error }.

(** The platform: the state of the operating system, the type of non-nil
    [*os.File] values, the two primitives of the package ([openFile] and
    [closeFile] live in the per-platform files of the package), and the
    parts of the Go library that [Read] and [Write] call on a handle.
    A [*os.File] argument may be nil, hence [option osfile]. Every call
    is one that returns: a primitive that blocks on a held lock or
    panics is outside this interface.

    [holds_lock] observes the lock table: whether the descriptor is live
    and holds its advisory lock. *)
Class Platform := {
  OS : Type;
  osfile : Type;
  openFile : string → Z → FileMode → OS → (osfile + error) * OS;
  closeFile : option osfile → OS → option error * OS;
  os_Name : osfile → string;
  ioutil_ReadAll : option osfile → OS → (list byte * option error) * OS;
  io_Copy : option osfile → Reader → OS → (Z * option error) * OS;
  holds_lock : osfile → OS → bool
}.

(** Modelled from the spec: the contract of the two primitives, whose code
    is in the per-platform files of the package. [acquire] opens the path
    it is given, so the descriptor's display name is that path, and the
    descriptor holds its lock from the moment it exists; [release] unlocks
    and closes the descriptor. *)
Class PrimitiveContract (P : Platform) : Prop := {
  acquire_name : ∀ name flag perm s fd s',
    openFile name flag perm s = (inl fd, s') → os_Name fd = name;
  acquire_locks : ∀ name flag perm s fd s',
    openFile name flag perm s = (inl fd, s') → holds_lock fd s' = true;
  release_unlocks : ∀ fd s,
    holds_lock fd (closeFile (Some fd) s).2 = false
}.

(* ===================================================================== *)
(** ** The Go side: heap, finalizers, history *)
(* ===================================================================== *)

(** A [*File] that is not nil. *)
Definition loc := positive.

(** The functions handed to [runtime.SetFinalizer]. The package has one:
    the closure of [OpenFile] that panics. *)
Inductive Finalizer := LeakPanic.

(** Ghost history of the calls made to the two primitives: [EvAcquire]
    records the arguments of a call of [openFile], [EvRelease f] a call
    of [closeFile] made by [Close] on the handle [f]. *)
Inductive Event :=
| EvAcquire (name : string) (flag : Z) (perm : FileMode)
| EvRelease (f : loc).

#[global] Instance Event_eq_dec : EqDecision Event.
Proof. solve_decision. Defined.

Section Package.
Context {P : Platform}.

(** [type File struct { osFile; closed bool }], where [osFile] embeds a
    [*os.File]. *)
Record File := mkFile { osFile : option osfile; closed : bool }.

Record World := mkWorld {
  os_state : OS;
  heap : gmap loc File;
  finalizers : gmap loc Finalizer;
  history : list Event
}.

Definition set_os (s : OS) (w : World) : World :=
  mkWorld s (heap w) (finalizers w) (history w).
Definition set_heap (h : gmap loc File) (w : World) : World :=
  mkWorld (os_state w) h (finalizers w) (history w).
Definition set_finalizers (fz : gmap loc Finalizer) (w : World) : World :=
  mkWorld (os_state w) (heap w) fz (history w).
Definition record (e : Event) (w : World) : World :=
  mkWorld (os_state w) (heap w) (finalizers w) (history w ++ [e]).

(** A computation either returns or panics; both leave a world. *)
Inductive Res (A : Type) :=
| Ok (a : A) (w : World)
| Panic (msg : string) (w : World).
Arguments Ok {A} a w.
Arguments Panic {A} msg w.

Definition M (A : Type) : Type := World → Res A.

Definition ret {A} (a : A) : M A := λ w, Ok a w.
Definition bind {A B} (m : M A) (k : A → M B) : M B := λ w,
  match m w with
  | Ok a w' => k a w'
  | Panic msg w' => Panic msg w'
  end.
Definition panic {A} (msg : string) : M A := λ w, Panic msg w.

(** [defer d] around [body]: [d] runs when [body] has returned and also
    when it panics; what [d] returns is dropped. *)
Definition defer {A B} (d : M B) (body : M A) : M A := λ w,
  match body w with
  | Ok a w1 =>
      match d w1 with
      | Ok _ w2 => Ok a w2
      | Panic msg w2 => Panic msg w2
      end
  | Panic msg w1 =>
      match d w1 with
      | Ok _ w2 => Panic msg w2
      | Panic msg' w2 => Panic msg' w2
      end
  end.

Definition world_of {A} (r : Res A) : World :=
  match r with Ok _ w => w | Panic _ w => w end.

Definition returned {A} (r : Res A) : option A :=
  match r with Ok a _ => Some a | Panic _ _ => None end.

End Package.

Arguments Ok {P A} a w.
Arguments Panic {P A} msg w.

#[global] Instance M_ret {P : Platform} : MRet (@M P) := @ret P.
#[global] Instance M_bind {P : Platform} : MBind (@M P) :=
  λ A B k m, bind m k.

Section Lockedfile.
Context {P : Platform}.

Definition nil_deref : string :=
  "invalid memory address or nil pointer dereference".

(** *** Heap and runtime operations *)

(** [new(File)]: a fresh object with zero fields. *)
Definition new_File : M loc := λ w,
  let f := fresh (dom (heap w)) in
  Ok f (set_heap (<[f := mkFile None false]> (heap w)) w).

Definition load (f : loc) : M File := λ w,
  match heap w !! f with
  | Some v => Ok v w
  | None => Panic nil_deref w
  end.

Definition store (f : loc) (v : File) : M unit := λ w,
  Ok tt (set_heap (<[f := v]> (heap w)) w).

(** [f.osFile.File = p] *)
Definition set_osFile (f : loc) (p : option osfile) : M unit :=
  v ← load f; store f (mkFile p (closed v)).

(** [f.closed = b] *)
Definition set_closed (f : loc) (b : bool) : M unit :=
  v ← load f; store f (mkFile (osFile v) b).

(** [f.Name()], promoted from the embedded [*os.File]; a nil [*os.File]
    is dereferenced. *)
Definition File_Name (f : loc) : M string :=
  v ← load f;
  match osFile v with
  | Some p => ret (os_Name p)
  | None => panic nil_deref
  end.

(** [runtime.SetFinalizer(f, fn)]; a nil [fn] clears the entry. *)
Definition SetFinalizer (f : loc) (fn : option Finalizer) : M unit := λ w,
  match fn with
  | Some fz => Ok tt (set_finalizers (<[f := fz]> (finalizers w)) w)
  | None => Ok tt (set_finalizers (delete f (finalizers w)) w)
  end.

(** The message of the closure passed to [SetFinalizer] in [OpenFile]. *)
Definition leak_message (name : string) : string :=
  String.append "lockedfile.File "
    (String.append name " became unreachable without a call to Close").

Definition run_finalizer (fn : Finalizer) (f : loc) : M unit :=
  match fn with
  | LeakPanic => name ← File_Name f; panic (leak_message name)
  end.

(** What the runtime does with an object that has become unreachable:
    its finalizer runs if it has one, else its memory is reclaimed. *)
Definition runtime_unreachable (f : loc) : M unit := λ w,
  match finalizers w !! f with
  | Some fn => run_finalizer fn f w
  | None => Ok tt (set_heap (delete f (heap w)) w)
  end.

(** *** Calls of the primitives and of the library *)

(** A call into the platform: it returns and leaves a new state. *)
Definition os_call {A} (op : OS → A * OS) : M A := λ w,
  let '(r, s) := op (os_state w) in Ok r (set_os s w).

Definition log (e : Event) : M unit := λ w, Ok tt (record e w).

Definition call_openFile (name : string) (flag : Z) (perm : FileMode)
  : M (osfile + error) :=
  r ← os_call (openFile name flag perm);
  log (EvAcquire name flag perm) ;;
  ret r.

Definition call_closeFile (f : loc) (p : option osfile) : M (option error) :=
  r ← os_call (closeFile p);
  log (EvRelease f) ;;
  ret r.

(** [ioutil.ReadAll(f)] reads through the embedded [*os.File]. *)
Definition ReadAll (f : loc) : M (list byte * option error) :=
  v ← load f;
  os_call (ioutil_ReadAll (osFile v)).

(** [io.Copy(f, content)] writes through the embedded [*os.File]. *)
Definition Copy (f : loc) (content : Reader) : M (Z * option error) :=
  v ← load f;
  os_call (io_Copy (osFile v) content).

(** *** The package *)

(** [func OpenFile(name string, flag int, perm os.FileMode) (f *File, err error)] *)
Definition OpenFile (name : string) (flag : Z) (perm : FileMode)
  : M (loc + error) :=
  f ← new_File;
  r ← call_openFile name flag perm;
  match r with
  | inr err =>
      set_osFile f None ;;
      ret (inr err)
  | inl p =>
      set_osFile f (Some p) ;;
      SetFinalizer f (Some LeakPanic) ;;
      ret (inl f)
  end.

(** [func Open(name string) (f *File, err error)] *)
Definition Open (name : string) : M (loc + error) :=
  OpenFile name O_RDONLY 0.

(** [func Create(name string) (f *File, err error)] *)
Definition Create (name : string) : M (loc + error) :=
  OpenFile name (Z.lor (Z.lor O_RDWR O_CREATE) O_TRUNC) perm_0666.

(** [func Edit(name string) (f *File, err error)] *)
Definition Edit (name : string) : M (loc + error) :=
  OpenFile name (Z.lor O_RDWR O_CREATE) perm_0666.

(** [func (f *File) Close() error] *)
Definition Close (f : loc) : M (option error) :=
  v ← load f;
  if closed v then
    name ← File_Name f;
    ret (Some (PathError "close" name ErrClosed))
  else
    set_closed f true ;;
    v' ← load f;
    err ← call_closeFile f (osFile v');
    SetFinalizer f None ;;
    ret err.

(** [func Read(name string) ([]byte, error)] *)
Definition Read (name : string) : M (list byte * option error) :=
  r ← Open name;
  match r with
  | inr err => ret ([], Some err)
  | inl f => defer (Close f) (ReadAll f)
  end.

(** [func Write(name string, content io.Reader, perm os.FileMode) (err error)] *)
Definition Write (name : string) (content : Reader) (perm : FileMode)
  : M (option error) :=
  r ← OpenFile name (Z.lor (Z.lor O_WRONLY O_CREATE) O_TRUNC) perm;
  match r with
  | inr err => ret (Some err)
  | inl f =>
      '(_, err) ← Copy f content;
      closeErr ← Close f;
      ret (match err with None => closeErr | Some _ => err end)
  end.

End Lockedfile.

(* ===================================================================== *)
(** ** An executable platform *)
(* ===================================================================== *)

Module SpecFS.

(** An open descriptor: the path it was opened on, its flags, which fix
    the lock mode (exclusive when they ask for write access, else
    shared), and its offset. *)
Record Desc := mkDesc { d_name : string; d_flag : Z; d_off : nat }.

(** A non-nil [*os.File]. *)
Record OSFile := mkOSFile { of_id : nat; of_name : string }.

(** Paths with their content, the table of live descriptors (each one
    holds its lock as long as it is in the table), the identities of
    descriptors that were closed, and the failures the environment is
    about to inject: every primitive that can fail on its own takes the
    head of [faults] when it runs. *)
Record FS := mkFS {
  files : gmap string (list byte);
  fdtab : gmap nat Desc;
  retired : gset nat;
  faults : list (option error)
}.

Definition set_files (m : gmap string (list byte)) (fs : FS) : FS :=
  mkFS m (fdtab fs) (retired fs) (faults fs).
Definition set_fdtab (t : gmap nat Desc) (fs : FS) : FS :=
  mkFS (files fs) t (retired fs) (faults fs).
Definition retire (id : nat) (fs : FS) : FS :=
  mkFS (files fs) (delete id (fdtab fs)) ({[id]} ∪ retired fs) (faults fs).

Definition next_fault (fs : FS) : option error * FS :=
  match faults fs with
  | [] => (None, fs)
  | x :: rest => (x, mkFS (files fs) (fdtab fs) (retired fs) rest)
  end.

Definition EAGAIN : Z := 11.
Definition EBADF : Z := 9.

(** A lock on [name] cannot be granted: an exclusive lock conflicts with
    every holder, a shared lock with an exclusive holder. *)
Definition conflicts (name : string) (excl : bool) (d : Desc) : bool :=
  bool_decide (d_name d = name) && (excl || wants_write (d_flag d)).

Definition lock_conflict (name : string) (excl : bool) (t : gmap nat Desc) : bool :=
  existsb (λ kd, conflicts name excl kd.2) (map_to_list t).

(** The holders of a lock on [name]. *)
Definition holders (name : string) (fs : FS) : nat :=
  length (filter (λ kd, d_name kd.2 = name) (map_to_list (fdtab fs))).

(** A standard open of [name], before any lock: the path must exist
    unless the flags ask to create it, and a truncating open empties
    it. [None] when there is nothing to open. *)
Definition open_path (name : string) (flag : Z) (fs : FS) : option FS :=
  match files fs !! name, has_flag O_CREATE flag with
  | None, false => None
  | old, _ =>
      let data := if has_flag O_TRUNC flag then [] else default [] old in
      Some (set_files (<[name := data]> (files fs)) fs)
  end.

(** Modelled from the spec: [acquire(path, flags, perm)], the primitive
    [openFile] of the per-platform files. It opens the path like a
    standard open and then takes the advisory lock, exclusive when the
    flags ask for write access and shared otherwise. A lock that cannot
    be granted is reported as an error here, and the descriptor is
    closed before that error returns. Permission checks are among the
    injected failures. *)
Definition acquire (name : string) (flag : Z) (perm : FileMode) (fs : FS)
  : (OSFile + error) * FS :=
  let '(flt, fs1) := next_fault fs in
  match flt with
  | Some e => (inr e, fs1)
  | None =>
      match open_path name flag fs1 with
      | None => (inr (PathError "open" name ErrNotExist), fs1)
      | Some fs2 =>
          if lock_conflict name (wants_write flag) (fdtab fs2)
          then (inr (PathError "open" name (Errno EAGAIN)), fs2)
          else
            let id := fresh (dom (fdtab fs2) ∪ retired fs2) in
            (inl (mkOSFile id name),
             set_fdtab (<[id := mkDesc name flag 0]> (fdtab fs2)) fs2)
      end
  end.

(** Modelled from the spec: [release(descriptor)], the primitive
    [closeFile] of the per-platform files. It unlocks and closes the
    descriptor in one step; what it reports is up to the environment.
    The spec says nothing of a nil file or of a descriptor that is
    closed already: here both are answered with an error and change
    nothing, and nothing below is proved from these two cases. *)
Definition release (p : option OSFile) (fs : FS) : option error * FS :=
  match p with
  | None => (Some ErrInvalid, fs)
  | Some f =>
      match fdtab fs !! of_id f with
      | None => (Some (os_closed_error (of_name f)), fs)
      | Some _ => next_fault (retire (of_id f) fs)
      end
  end.

(** [ioutil.ReadAll] on an [os.File]: everything from the offset to the
    end of the file. *)
Definition read_all (p : option OSFile) (fs : FS)
  : (list byte * option error) * FS :=
  match p with
  | None => (([], Some ErrInvalid), fs)
  | Some f =>
      match fdtab fs !! of_id f with
      | None => (([], Some (PathError "read" (of_name f) ErrClosed)), fs)
      | Some d =>
          if Z.eqb (access_mode (d_flag d)) O_WRONLY
          then (([], Some (PathError "read" (of_name f) (Errno EBADF))), fs)
          else
            let '(flt, fs1) := next_fault fs in
            match flt with
            | Some e => (([], Some e), fs1)
            | None =>
                let data := default [] (files fs1 !! d_name d) in
                ((drop (d_off d) data, None),
                 set_fdtab (<[of_id f :=
                     mkDesc (d_name d) (d_flag d) (d_off d `max` length data)]>
                     (fdtab fs1)) fs1)
            end
      end
  end%nat.

(** [new] written over [old] at offset [off]; a gap is filled with
    zero bytes. *)
Definition write_at (off : nat) (new old : list byte) : list byte :=
  resize off x00 old ++ new ++ drop (off + length new) old.

(** [io.Copy] into an [os.File]: the bytes of the reader are written at
    the offset, and the reader's own failure, if any, is what the copy
    reports. *)
Definition copy (p : option OSFile) (rd : Reader) (fs : FS)
  : (Z * option error) * FS :=
  match p with
  | None => ((0%Z, Some ErrInvalid), fs)
  | Some f =>
      match fdtab fs !! of_id f with
      | None => ((0%Z, Some (PathError "write" (of_name f) ErrClosed)), fs)
      | Some d =>
          if negb (wants_write (d_flag d))
          then ((0%Z, Some (PathError "write" (of_name f) (Errno EBADF))), fs)
          else
            let '(flt, fs1) := next_fault fs in
            match flt with
            | Some e => ((0%Z, Some e), fs1)
            | None =>
                let old := default [] (files fs1 !! d_name d) in
                let n := length (r_data rd) in
                ((Z.of_nat n, r_err rd),
                 set_fdtab (<[of_id f :=
                     mkDesc (d_name d) (d_flag d) (d_off d + n)%nat]> (fdtab fs1))
                   (set_files (<[d_name d :=
                     write_at (d_off d) (r_data rd) old]> (files fs1)) fs1))
            end
      end
  end.

Definition live (f : OSFile) (fs : FS) : bool :=
  bool_decide (is_Some (fdtab fs !! of_id f)).

#[global] Instance platform : Platform := {|
  OS := FS;
  osfile := OSFile;
  openFile := acquire;
  closeFile := release;
  os_Name := of_name;
  ioutil_ReadAll := read_all;
  io_Copy := copy;
  holds_lock := live
|}.

(** A file system with the given files, no descriptors and the given
    failures to come; and the world of a program that has just started
    on it. *)
Definition fs_of (fl : list (string * list byte)) (flt : list (option error)) : FS :=
  mkFS (list_to_map fl) ∅ ∅ flt.

Definition boot (fs : FS) : World := mkWorld (fs : OS) ∅ ∅ [].

Definition bytes (s : string) : list byte := list_byte_of_string s.

(** The state after the next fault has been taken, with new tables. *)
Definition pop (fs : FS) (fl : gmap string (list byte)) (t : gmap nat Desc)
  (r : gset nat) : FS :=
  mkFS fl t r (faults (next_fault fs).2).

(** The environment injects no failure into the next [n] primitives. *)
Definition quiet (n : nat) (fs : FS) : bool :=
  forallb (λ x, bool_decide (x = None)) (take n (faults fs)).

End SpecFS.

(* ===================================================================== *)
(** ** The API as a transition system *)
(* ===================================================================== *)

Section Calls.
Context {P : Platform}.

(** One call of the package by a client. *)
Inductive Op :=
| CallOpenFile (name : string) (flag : Z) (perm : FileMode)
| CallOpen (name : string)
| CallCreate (name : string)
| CallEdit (name : string)
| CallClose (f : loc)
| CallRead (name : string)
| CallWrite (name : string) (content : Reader) (perm : FileMode).

Definition exec (o : Op) : M unit :=
  match o with
  | CallOpenFile name flag perm => OpenFile name flag perm ;; mret tt
  | CallOpen name => Open name ;; mret tt
  | CallCreate name => Create name ;; mret tt
  | CallEdit name => Edit name ;; mret tt
  | CallClose f => Close f ;; mret tt
  | CallRead name => Read name ;; mret tt
  | CallWrite name content perm => Write name content perm ;; mret tt
  end.

(** The world after a sequence of calls; a call that panics leaves the
    world it panicked in, and the client may recover and go on. *)
Definition run (ops : list Op) (w : World) : World :=
  foldl (λ w o, world_of (exec o w)) w ops.

(** How often [closeFile] was called for the handle [f]. *)
Definition releases (f : loc) (h : list Event) : nat :=
  length (filter (λ e, e = EvRelease f) h).

End Calls.

Arguments releases : simpl never.

Section Transitions.
Context {P : Platform}.

Implicit Types (w : World) (f g : loc) (p : option osfile) (o : Op).

(** A call either makes one new object [v] at a fresh address and leaves
    every other object, and every other finalizer entry, alone
    ([step_handle]: the open operations, [Read] and [Write]); or it is a
    [Close] that changes nothing ([step_noop]); or it is the [Close]
    that takes an open handle to closed ([step_close]). *)
Inductive Step : Op → World → World → Prop :=
| step_handle o w w' v evs :
    (∀ g, o ≠ CallClose g) →
    heap w' = <[fresh (dom (heap w)) := v]> (heap w) →
    (∀ g, g ≠ fresh (dom (heap w)) → finalizers w' !! g = finalizers w !! g) →
    history w' = history w ++ evs →
    (∀ g, releases g evs =
          if bool_decide (g = fresh (dom (heap w))) && closed v then 1 else 0)%nat →
    Step o w w'
| step_noop f w :
    (∀ p, heap w !! f ≠ Some (mkFile p false)) →
    Step (CallClose f) w w
| step_close f p w w' :
    heap w !! f = Some (mkFile p false) →
    heap w' = <[f := mkFile p true]> (heap w) →
    finalizers w' = delete f (finalizers w) →
    history w' = history w ++ [EvRelease f] →
    os_state w' = (closeFile p (os_state w)).2 →
    Step (CallClose f) w w'.

(** The history agrees with the flags: [closeFile] has been called once
    for a handle that is closed and not at all for any other. *)
Definition released_once (w : World) : Prop :=
  ∀ g, releases g (history w) =
       match heap w !! g with
       | Some v => if closed v then 1%nat else 0%nat
       | None => 0%nat
       end.

(** The guard of [f] is armed: [f] is an open handle with a descriptor
    and the runtime holds the panicking finalizer for it. *)
Definition armed (f : loc) (fd : osfile) (w : World) : Prop :=
  heap w !! f = Some (mkFile (Some fd) false) ∧
  finalizers w !! f = Some LeakPanic.

(** The finalizer the package keeps for an object: the panicking one for
    an open handle with a descriptor, none for any other. *)
Definition guarded (v : File) : option Finalizer :=
  match osFile v, closed v with
  | Some _, false => Some LeakPanic
  | _, _ => None
  end.

(** The finalizer table agrees with the heap. *)
Definition guard_consistent (w : World) : Prop :=
  ∀ f, finalizers w !! f =
       match heap w !! f with
       | Some v => guarded v
       | None => None
       end.

End Transitions.

(* ===================================================================== *)
(** ** Concrete worlds *)
(* ===================================================================== *)

Module Demo.
Import SpecFS.

Definition EIO : error := Errno 5.
Definition ENOSPC : error := Errno 28.

Definition disk : list (string * list byte) := [("a.txt"%string, bytes "old")].

(** No primitive fails. *)
Definition calm : World := boot (fs_of disk []).

(** The first primitive goes through and the second one fails. *)
Definition second_fails : World := boot (fs_of disk [None; Some EIO]).

(** The first two primitives go through and the third one fails. *)
Definition third_fails : World := boot (fs_of disk [None; None; Some EIO]).

(** The open goes through, then two primitives fail in a row. *)
Definition both_fail : World := boot (fs_of disk [None; Some EIO; Some ENOSPC]).

(** The open fails. *)
Definition open_fails : World := boot (fs_of disk [Some ErrPermission]).

Definition hello : Reader := mkReader (bytes "hello") None.

Definition a_txt : OSFile := mkOSFile 0 "a.txt".

Definition wflag : Z := Z.lor (Z.lor O_WRONLY O_CREATE) O_TRUNC.

(** The world after one successful [Open] in [second_fails]; the handle
    is at address 1. *)
Definition opened : World := world_of (Open "a.txt" second_fails).

End Demo.

(* ===================================================================== *)
(** ** What one call does *)
(* ===================================================================== *)

Ltac go_unfold :=
  repeat progress
    (unfold set_osFile, set_closed, File_Name, SetFinalizer, new_File,
       call_openFile, call_closeFile, os_call, log, ReadAll, Copy, load, store,
       panic, defer, mbind, M_bind, bind, mret, M_ret, ret,
       set_heap, set_os, set_finalizers, record;
     cbn).

Section Equations.
Context {P : Platform}.

Implicit Types (w : World) (f g : loc) (p : option osfile).

Lemma fresh_heap w : heap w !! fresh (dom (heap w)) = None.
Proof. apply not_elem_of_dom, is_fresh. Qed.

Lemma fresh_ne w f v : heap w !! f = Some v → fresh (dom (heap w)) ≠ f.
Proof. intros H E. rewrite <- E, fresh_heap in H. discriminate. Qed.

(** [OpenFile], call by call. *)
Lemma OpenFile_run name flag perm w :
  OpenFile name flag perm w =
  let f := fresh (dom (heap w)) in
  let h := history w ++ [EvAcquire name flag perm] in
  match openFile name flag perm (os_state w) with
  | (inl fd, s) =>
      Ok (inl f) (mkWorld s (<[f := mkFile (Some fd) false]> (heap w))
                    (<[f := LeakPanic]> (finalizers w)) h)
  | (inr e, s) =>
      Ok (inr e) (mkWorld s (<[f := mkFile None false]> (heap w))
                    (finalizers w) h)
  end.
Proof.
  unfold OpenFile. go_unfold.
  destruct (openFile name flag perm (os_state w)) as [[fd|e] s]; cbn;
    rewrite lookup_insert_eq; cbn; rewrite insert_insert_eq; reflexivity.
Qed.

(** [Close] on a handle that is open. *)
Lemma Close_open f p w :
  heap w !! f = Some (mkFile p false) →
  Close f w =
  Ok (closeFile p (os_state w)).1
     (mkWorld (closeFile p (os_state w)).2
        (<[f := mkFile p true]> (heap w))
        (delete f (finalizers w))
        (history w ++ [EvRelease f])).
Proof.
  intros H. unfold Close. go_unfold. repeat (rewrite H; cbn).
  rewrite lookup_insert_eq. cbn.
  destruct (closeFile p (os_state w)) as [r s]; reflexivity.
Qed.

(** [Close] on a handle that is closed. *)
Lemma Close_closed f fd w :
  heap w !! f = Some (mkFile (Some fd) true) →
  Close f w = Ok (Some (PathError "close" (os_Name fd) ErrClosed)) w.
Proof. intros H. unfold Close. go_unfold. repeat (rewrite H; cbn). reflexivity. Qed.

(** [Close] never changes the world of a handle that is closed or
    dangling. *)
Lemma Close_noop f w :
  (∀ p, heap w !! f ≠ Some (mkFile p false)) →
  world_of (Close f w) = w.
Proof.
  intros H. unfold Close. go_unfold.
  destruct (heap w !! f) as [[p [|]]|] eqn:E; cbn; try rewrite E; cbn.
  - destruct p; reflexivity.
  - exfalso. exact (H p eq_refl).
  - reflexivity.
Qed.

(** [Read], call by call. *)
Lemma Read_run name w :
  Read name w =
  let f := fresh (dom (heap w)) in
  match openFile name O_RDONLY 0 (os_state w) with
  | (inr e, s) =>
      Ok ([], Some e)
         (mkWorld s (<[f := mkFile None false]> (heap w)) (finalizers w)
            (history w ++ [EvAcquire name O_RDONLY 0]))
  | (inl fd, s) =>
      let rd := ioutil_ReadAll (Some fd) s in
      let cl := closeFile (Some fd) rd.2 in
      Ok rd.1
         (mkWorld cl.2 (<[f := mkFile (Some fd) true]> (heap w))
            (delete f (finalizers w))
            (history w ++ [EvAcquire name O_RDONLY 0; EvRelease f]))
  end.
Proof.
  unfold Read, Open.
  unfold mbind, M_bind. unfold bind at 1.
  rewrite OpenFile_run. cbn.
  destruct (openFile name O_RDONLY 0 (os_state w)) as [[fd|e] s]; [|reflexivity].
  unfold defer, ReadAll. go_unfold. rewrite lookup_insert_eq. cbn.
  destruct (ioutil_ReadAll (Some fd) s) as [res s2]. cbn.
  erewrite Close_open by (cbn; apply lookup_insert_eq). cbn.
  rewrite insert_insert_eq, delete_insert_eq, <- app_assoc. reflexivity.
Qed.

(** [Write], call by call. *)
Lemma Write_run name content perm w :
  Write name content perm w =
  let f := fresh (dom (heap w)) in
  let flag := Z.lor (Z.lor O_WRONLY O_CREATE) O_TRUNC in
  match openFile name flag perm (os_state w) with
  | (inr e, s) =>
      Ok (Some e)
         (mkWorld s (<[f := mkFile None false]> (heap w)) (finalizers w)
            (history w ++ [EvAcquire name flag perm]))
  | (inl fd, s) =>
      let cp := io_Copy (Some fd) content s in
      let cl := closeFile (Some fd) cp.2 in
      Ok (match cp.1.2 with None => cl.1 | Some e => Some e end)
         (mkWorld cl.2 (<[f := mkFile (Some fd) true]> (heap w))
            (delete f (finalizers w))
            (history w ++ [EvAcquire name flag perm; EvRelease f]))
  end.
Proof.
  unfold Write.
  unfold mbind, M_bind. unfold bind at 1.
  rewrite OpenFile_run. cbn.
  destruct (openFile name _ perm (os_state w)) as [[fd|e] s]; [|reflexivity].
  unfold Copy. go_unfold. rewrite lookup_insert_eq. cbn.
  destruct (io_Copy (Some fd) content s) as [[n cerr] s2]. cbn.
  erewrite Close_open by (cbn; apply lookup_insert_eq). cbn.
  rewrite insert_insert_eq, delete_insert_eq, <- app_assoc.
  destruct cerr; reflexivity.
Qed.

End Equations.

(* ===================================================================== *)
(** ** The shape of a step, and what every step keeps *)
(* ===================================================================== *)

Section Steps.
Context {P : Platform}.

Implicit Types (w : World) (f g : loc) (p : option osfile) (o : Op).

Lemma world_of_then {A} (m : M A) w : world_of ((m ;; mret tt) w) = world_of (m w).
Proof. go_unfold. destruct (m w); reflexivity. Qed.

Lemma releases_app g (h1 h2 : list Event) :
  releases g (h1 ++ h2) = (releases g h1 + releases g h2)%nat.
Proof. unfold releases. rewrite filter_app, length_app. reflexivity. Qed.

Lemma releases_acquire g name flag perm :
  releases g [EvAcquire name flag perm] = 0%nat.
Proof. reflexivity. Qed.

Lemma releases_one g f :
  releases g [EvRelease f] = if bool_decide (g = f) then 1%nat else 0%nat.
Proof.
  unfold releases. rewrite filter_cons, filter_nil.
  case_bool_decide; case_decide; simplify_eq; try reflexivity; congruence.
Qed.

Lemma releases_pair g f name flag perm :
  releases g [EvAcquire name flag perm; EvRelease f] =
  if bool_decide (g = f) then 1%nat else 0%nat.
Proof.
  change [EvAcquire name flag perm; EvRelease f]
    with ([EvAcquire name flag perm] ++ [EvRelease f]).
  rewrite releases_app, releases_one. reflexivity.
Qed.

Lemma OpenFile_Step o name flag perm w :
  (∀ g, o ≠ CallClose g) →
  Step o w (world_of (OpenFile name flag perm w)).
Proof.
  intros Ho. rewrite OpenFile_run. cbn.
  destruct (openFile name flag perm (os_state w)) as [[fd|e] s]; cbn.
  - eapply step_handle with (evs := [EvAcquire name flag perm]); cbn; eauto.
    + intros g Hg. apply lookup_insert_ne. congruence.
    + intros g. rewrite andb_false_r. reflexivity.
  - eapply step_handle with (evs := [EvAcquire name flag perm]); cbn; eauto.
    intros g. rewrite andb_false_r. reflexivity.
Qed.

Lemma exec_Step o w : Step o w (world_of (exec o w)).
Proof.
  destruct o; unfold exec; rewrite world_of_then.
  - apply OpenFile_Step; discriminate.
  - apply OpenFile_Step; discriminate.
  - apply OpenFile_Step; discriminate.
  - apply OpenFile_Step; discriminate.
  - destruct (heap w !! f) as [[p [|]]|] eqn:E.
    + rewrite Close_noop by (intros q; rewrite E; discriminate).
      apply step_noop. intros q; rewrite E; discriminate.
    + rewrite (Close_open _ _ _ E). cbn.
      eapply step_close; cbn; eauto.
    + rewrite Close_noop by (intros q; rewrite E; discriminate).
      apply step_noop. intros q; rewrite E; discriminate.
  - rewrite Read_run. cbn.
    destruct (openFile name O_RDONLY 0 (os_state w)) as [[fd|e] s]; cbn.
    + eapply step_handle
        with (evs := [EvAcquire name O_RDONLY 0; EvRelease (fresh (dom (heap w)))]);
        cbn; eauto; try discriminate.
      * intros g Hg. apply lookup_delete_ne. congruence.
      * intros g. rewrite andb_true_r.
        exact (releases_pair g (fresh (dom (heap w))) name O_RDONLY 0).
    + eapply step_handle with (evs := [EvAcquire name O_RDONLY 0]);
        cbn; eauto; try discriminate.
      intros g. rewrite andb_false_r. reflexivity.
  - rewrite Write_run. cbn.
    destruct (openFile name _ perm (os_state w)) as [[fd|e] s]; cbn.
    + eapply step_handle
        with (evs := [EvAcquire name _ perm; EvRelease (fresh (dom (heap w)))]);
        cbn; eauto; try discriminate.
      * intros g Hg. apply lookup_delete_ne. congruence.
      * intros g. rewrite andb_true_r.
        exact (releases_pair g (fresh (dom (heap w))) name
                 (Z.lor (Z.lor O_WRONLY O_CREATE) O_TRUNC) perm).
    + eapply step_handle with (evs := [EvAcquire name _ perm]);
        cbn; eauto; try discriminate.
      intros g. rewrite andb_false_r. reflexivity.
Qed.

(** *** What a step keeps *)

(** An object stays where it is, with the same descriptor; it changes
    only by [Close] on it, and then only from open to closed. *)
Lemma Step_object o w w' f v :
  Step o w w' → heap w !! f = Some v →
  heap w' !! f = Some v ∨
  (o = CallClose f ∧ closed v = false ∧
   heap w' !! f = Some (mkFile (osFile v) true)).
Proof.
  intros HS Hf. destruct HS as [o w w' v' evs Ho Hh _ _ _|g w _|g p w w' Hg Hh _ _ _].
  - left. rewrite Hh, lookup_insert_ne; [done|]. by eapply fresh_ne.
  - by left.
  - destruct (decide (g = f)) as [->|Hne].
    + right. rewrite Hf in Hg. simplify_eq. cbn.
      rewrite Hh, lookup_insert_eq. done.
    + left. by rewrite Hh, lookup_insert_ne.
Qed.

Lemma Step_closed o w w' f p :
  Step o w w' → heap w !! f = Some (mkFile p true) →
  heap w' !! f = Some (mkFile p true).
Proof.
  intros HS Hf. destruct (Step_object _ _ _ _ _ HS Hf) as [|(_ & ? & _)]; [done|].
  discriminate.
Qed.

(** The finalizer entry of an object that is there is never set by a
    later call. *)
Lemma Step_disarmed o w w' f v :
  Step o w w' → heap w !! f = Some v → finalizers w !! f = None →
  finalizers w' !! f = None.
Proof.
  intros HS Hf Hz. destruct HS as [o w w' v' evs _ _ Hfz _ _|g w _|g p w w' _ _ Hfz _ _].
  - rewrite Hfz; [done|]. intros ->. by rewrite fresh_heap in Hf.
  - done.
  - rewrite Hfz. destruct (decide (g = f)) as [->|Hne].
    + apply lookup_delete_eq.
    + by rewrite lookup_delete_ne.
Qed.

Lemma Step_released_once o w w' :
  Step o w w' → released_once w → released_once w'.
Proof.
  intros HS HW g. specialize (HW g).
  destruct HS as [o w w' v' evs _ Hh _ Hhist Hev|f w _|f p w w' Hf Hh _ Hhist _].
  - rewrite Hhist, releases_app, HW, Hev, Hh.
    case_bool_decide as Hg; cbn.
    + subst g. rewrite fresh_heap, lookup_insert_eq. done.
    + rewrite lookup_insert_ne by done. lia.
  - done.
  - rewrite Hhist, releases_app, HW, releases_one, Hh.
    case_bool_decide as Hg.
    + subst g. rewrite Hf, lookup_insert_eq. done.
    + rewrite lookup_insert_ne by done. lia.
Qed.

(** *** Sequences of calls *)

Lemma run_snoc ops o w : run (ops ++ [o]) w = world_of (exec o (run ops w)).
Proof. unfold run. rewrite foldl_app. reflexivity. Qed.

Lemma run_invariant (I : World → Prop) :
  (∀ o w, I w → I (world_of (exec o w))) →
  ∀ ops w, I w → I (run ops w).
Proof.
  intros Hstep ops. induction ops as [|o ops IH]; intros w Hw; [done|].
  cbn. apply IH, Hstep, Hw.
Qed.

Lemma run_closed ops w f p :
  heap w !! f = Some (mkFile p true) →
  heap (run ops w) !! f = Some (mkFile p true).
Proof.
  apply (run_invariant (λ w, heap w !! f = Some (mkFile p true))).
  intros o w0. apply Step_closed with o, exec_Step.
Qed.

Lemma run_disarmed ops w f p :
  heap w !! f = Some (mkFile p true) ∧ finalizers w !! f = None →
  heap (run ops w) !! f = Some (mkFile p true) ∧
  finalizers (run ops w) !! f = None.
Proof.
  apply (run_invariant
    (λ w, heap w !! f = Some (mkFile p true) ∧ finalizers w !! f = None)).
  intros o w0 [H1 H2]. split.
  - eapply Step_closed; [apply exec_Step|done].
  - eapply Step_disarmed; [apply exec_Step|done..].
Qed.

Lemma run_released_once ops w : released_once w → released_once (run ops w).
Proof.
  apply (run_invariant released_once).
  intros o w0. apply Step_released_once with o, exec_Step.
Qed.

End Steps.

(* ===================================================================== *)
(** ** The leak guard *)
(* ===================================================================== *)

Section Guard.
Context {P : Platform}.

Implicit Types (w : World) (f g : loc) (p : option osfile) (o : Op).

(** An armed guard fires when its handle becomes unreachable. *)
Lemma armed_fires f fd w :
  armed f fd w →
  runtime_unreachable f w = Panic (leak_message (os_Name fd)) w.
Proof.
  intros [Hh Hz]. unfold runtime_unreachable. rewrite Hz. cbn.
  go_unfold. rewrite Hh. reflexivity.
Qed.

(** Without an entry in the finalizer table the runtime reclaims the
    object in silence. *)
Lemma disarmed_silent f w :
  finalizers w !! f = None →
  runtime_unreachable f w = Ok tt (set_heap (delete f (heap w)) w).
Proof. intros Hz. unfold runtime_unreachable. rewrite Hz. reflexivity. Qed.

(** Only [Close] on the handle itself takes the guard away. *)
Lemma Step_armed o w w' f fd :
  Step o w w' → o ≠ CallClose f → armed f fd w → armed f fd w'.
Proof.
  intros HS Ho [Hh Hz]. split.
  - destruct (Step_object _ _ _ _ _ HS Hh) as [|(? & _)]; done.
  - destruct HS as [o w w' v' evs _ _ Hfz _ _|g w _|g p w w' _ _ Hfz _ _].
    + rewrite Hfz; [done|]. intros ->. by rewrite fresh_heap in Hh.
    + done.
    + rewrite Hfz, lookup_delete_ne; [done|]. congruence.
Qed.

Lemma run_armed ops w f fd :
  CallClose f ∉ ops → armed f fd w → armed f fd (run ops w).
Proof.
  revert w. induction ops as [|o ops IH]; intros w Hn Ha; [done|].
  cbn. apply IH.
  - intros ?. apply Hn. by right.
  - eapply Step_armed; [apply exec_Step| |done].
    intros ->. apply Hn. by left.
Qed.

End Guard.

(* ===================================================================== *)
(** ** The executable platform keeps the contract *)
(* ===================================================================== *)

Module SpecFSFacts.
Import SpecFS.

Implicit Types (fs : FS) (f : OSFile) (name : string) (w : @World platform).

Lemma next_fault_files fs : files (next_fault fs).2 = files fs.
Proof. unfold next_fault. destruct (faults fs); reflexivity. Qed.

Lemma next_fault_fdtab fs : fdtab (next_fault fs).2 = fdtab fs.
Proof. unfold next_fault. destruct (faults fs); reflexivity. Qed.

Lemma next_fault_retired fs : retired (next_fault fs).2 = retired fs.
Proof. unfold next_fault. destruct (faults fs); reflexivity. Qed.

(** The identity [acquire] picks is new. *)
Lemma fresh_id fs : fdtab fs !! fresh (dom (fdtab fs) ∪ retired fs) = None.
Proof.
  apply not_elem_of_dom. intros H.
  apply (is_fresh (dom (fdtab fs) ∪ retired fs)). set_solver.
Qed.

Lemma open_path_ok name flag fs fs2 :
  open_path name flag fs = Some fs2 →
  (has_flag O_CREATE flag = false → is_Some (files fs !! name)) ∧
  files fs2 = <[name := if has_flag O_TRUNC flag then []
                        else default [] (files fs !! name)]> (files fs) ∧
  fdtab fs2 = fdtab fs ∧ retired fs2 = retired fs ∧ faults fs2 = faults fs.
Proof.
  unfold open_path.
  destruct (files fs !! name) as [old|], (has_flag O_CREATE flag);
    intros [= <-]; cbn; eauto 10.
  repeat split; eauto; discriminate.
Qed.

(** What a successful [acquire] has done. *)
Lemma acquire_ok name flag perm fs f fs' :
  acquire name flag perm fs = (inl f, fs') →
  (next_fault fs).1 = None ∧
  (has_flag O_CREATE flag = false → is_Some (files fs !! name)) ∧
  lock_conflict name (wants_write flag) (fdtab fs) = false ∧
  f = mkOSFile (fresh (dom (fdtab fs) ∪ retired fs)) name ∧
  files fs' = <[name := if has_flag O_TRUNC flag then []
                        else default [] (files fs !! name)]> (files fs) ∧
  fdtab fs' = <[of_id f := mkDesc name flag 0]> (fdtab fs) ∧
  retired fs' = retired fs ∧
  faults fs' = faults (next_fault fs).2.
Proof.
  unfold acquire.
  pose proof (next_fault_files fs) as Hfl.
  pose proof (next_fault_fdtab fs) as Hfd.
  pose proof (next_fault_retired fs) as Hrt.
  destruct (next_fault fs) as [[e|] fs1]; cbn in *; [discriminate|].
  destruct (open_path name flag fs1) as [fs2|] eqn:E; [|discriminate].
  apply open_path_ok in E as (Hex & Hfl2 & Hfd2 & Hrt2 & Hft2).
  rewrite Hfd2, Hrt2, Hfd, Hrt.
  destruct (lock_conflict _ _ _); [discriminate|].
  intros [= <- <-]. cbn. rewrite Hfl2, Hrt2, Hft2, Hfl, Hrt.
  rewrite Hfl in Hex. done.
Qed.

(** A failed [acquire] leaves the descriptor table alone. *)
Lemma acquire_fail_fdtab name flag perm fs e fs' :
  acquire name flag perm fs = (inr e, fs') → fdtab fs' = fdtab fs.
Proof.
  unfold acquire.
  pose proof (next_fault_fdtab fs) as Hfd.
  destruct (next_fault fs) as [[e'|] fs1]; cbn in *.
  - by intros [= _ <-].
  - destruct (open_path name flag fs1) as [fs2|] eqn:E.
    + apply open_path_ok in E as (_ & _ & Hfd2 & _).
      destruct (lock_conflict _ _ _); intros [= _ <-]; congruence.
    + by intros [= _ <-].
Qed.

#[global] Instance contract : PrimitiveContract platform.
Proof.
  split.
  - intros name flag perm s fd s' H.
    apply acquire_ok in H as (_ & _ & _ & -> & _). reflexivity.
  - intros name flag perm s fd s' H.
    apply acquire_ok in H as (_ & _ & _ & _ & _ & Hfd & _).
    cbn. unfold live. rewrite Hfd, lookup_insert_eq.
    apply bool_decide_eq_true. eauto.
  - intros fd s. cbn. unfold live, release.
    apply bool_decide_eq_false. intros [d Hd].
    destruct (fdtab s !! of_id fd) eqn:E; cbn in Hd.
    + rewrite next_fault_fdtab in Hd. cbn in Hd.
      by rewrite lookup_delete_eq in Hd.
    + congruence.
Qed.

(** *** The primitives on a live descriptor *)

Lemma next_fault_eta fs :
  (next_fault fs).2 = pop fs (files fs) (fdtab fs) (retired fs).
Proof. unfold pop, next_fault. destruct fs as [? ? ? [|? ?]]; reflexivity. Qed.

Lemma release_live f fs d :
  fdtab fs !! of_id f = Some d →
  release (Some f) fs =
  ((next_fault fs).1,
   pop fs (files fs) (delete (of_id f) (fdtab fs)) ({[of_id f]} ∪ retired fs)).
Proof.
  intros H. unfold release. rewrite H.
  unfold pop, retire, next_fault. destruct fs as [? ? ? [|? ?]]; reflexivity.
Qed.

Lemma copy_live f rd fs d :
  fdtab fs !! of_id f = Some d → wants_write (d_flag d) = true →
  copy (Some f) rd fs =
  match (next_fault fs).1 with
  | Some e => ((0, Some e), (next_fault fs).2)
  | None =>
      ((Z.of_nat (length (r_data rd)), r_err rd),
       pop fs
         (<[d_name d := write_at (d_off d) (r_data rd)
                          (default [] (files fs !! d_name d))]> (files fs))
         (<[of_id f := mkDesc (d_name d) (d_flag d)
                         (d_off d + length (r_data rd))]> (fdtab fs))
         (retired fs))
  end.
Proof.
  intros H Hw. unfold copy. rewrite H, Hw. cbn.
  unfold pop, next_fault. destruct fs as [? ? ? [|[?|] ?]]; reflexivity.
Qed.

Lemma read_all_live f fs d :
  fdtab fs !! of_id f = Some d → access_mode (d_flag d) ≠ O_WRONLY →
  read_all (Some f) fs =
  match (next_fault fs).1 with
  | Some e => (([], Some e), (next_fault fs).2)
  | None =>
      ((drop (d_off d) (default [] (files fs !! d_name d)), None),
       pop fs (files fs)
         (<[of_id f := mkDesc (d_name d) (d_flag d)
              (d_off d `max` length (default [] (files fs !! d_name d)))]>
            (fdtab fs))
         (retired fs))
  end.
Proof.
  intros H Hm. unfold read_all. rewrite H.
  apply Z.eqb_neq in Hm. rewrite Hm.
  unfold pop, next_fault. destruct fs as [? ? ? [|[?|] ?]]; reflexivity.
Qed.

#[local] Arguments acquire : simpl never.
#[local] Arguments release : simpl never.
#[local] Arguments copy : simpl never.
#[local] Arguments read_all : simpl never.
#[local] Arguments write_at : simpl never.

(** *** Writing and reading back *)

Lemma write_at_start (data : list byte) : write_at 0 data [] = data.
Proof. unfold write_at. cbn. rewrite drop_nil. apply app_nil_r. Qed.

Lemma delete_fresh_id fs d :
  delete (fresh (dom (fdtab fs) ∪ retired fs))
    (<[fresh (dom (fdtab fs) ∪ retired fs) := d]> (fdtab fs)) = fdtab fs.
Proof. rewrite delete_insert_eq. apply delete_id, fresh_id. Qed.

(** After a [Write] that reported success the file holds the content,
    whatever it held before, and the descriptor table is what it was. *)
Lemma Write_ok_state name content perm w w1 :
  Write name content perm w = Ok None w1 →
  r_err content = None ∧
  files (os_state w1) = <[name := r_data content]> (files (os_state w)) ∧
  fdtab (os_state w1) = fdtab (os_state w) ∧
  lock_conflict name true (fdtab (os_state w)) = false.
Proof.
  rewrite Write_run. cbn.
  destruct (acquire name _ perm (os_state w)) as [[fd|e] s] eqn:Ha; [|discriminate].
  apply acquire_ok in Ha as (_ & _ & Hlock & -> & Hfl & Hfd & Hrt & _).
  cbn in Hfl, Hfd, Hlock.
  rewrite (copy_live _ content s
             (mkDesc name (Z.lor (Z.lor O_WRONLY O_CREATE) O_TRUNC) 0));
    [|cbn; rewrite Hfd; apply lookup_insert_eq|reflexivity].
  destruct (next_fault s).1 as [e|]; [discriminate|]. cbn.
  rewrite (release_live _ _
             (mkDesc name (Z.lor (Z.lor O_WRONLY O_CREATE) O_TRUNC)
                (0 + length (r_data content))));
    [|cbn; apply lookup_insert_eq].
  cbn. destruct (r_err content); [discriminate|].
  intros [= _ <-]. cbn.
  change (has_flag O_TRUNC (Z.lor (Z.lor O_WRONLY O_CREATE) O_TRUNC)) with true in Hfl.
  rewrite Hfl, Hfd, lookup_insert_eq, insert_insert_eq. cbn.
  rewrite write_at_start, delete_insert_eq, delete_fresh_id. done.
Qed.

Lemma quiet_S n fs fl t r :
  quiet (S n) fs = true →
  (next_fault fs).1 = None ∧ quiet n (pop fs fl t r) = true.
Proof.
  unfold quiet, pop, next_fault. destruct fs as [? ? ? [|[e|] rest]]; cbn.
  - intros _. split; [done|]. by rewrite take_nil.
  - discriminate.
  - done.
Qed.

Lemma acquire_succeeds name flag perm fs old :
  (next_fault fs).1 = None →
  files fs !! name = Some old →
  lock_conflict name (wants_write flag) (fdtab fs) = false →
  acquire name flag perm fs =
  (inl (mkOSFile (fresh (dom (fdtab fs) ∪ retired fs)) name),
   pop fs (<[name := if has_flag O_TRUNC flag then [] else old]> (files fs))
     (<[fresh (dom (fdtab fs) ∪ retired fs) := mkDesc name flag 0]> (fdtab fs))
     (retired fs)).
Proof.
  intros Hq Hf Hl. unfold acquire, open_path, pop, next_fault in *.
  destruct fs as [fl t r flt]. cbn in *.
  destruct flt as [|[e|] rest]; cbn in *; try discriminate;
    rewrite Hf; cbn; rewrite Hl; reflexivity.
Qed.

(** A shared lock is granted wherever an exclusive one is. *)
Lemma lock_conflict_shared name (t : gmap nat Desc) :
  lock_conflict name true t = false → lock_conflict name false t = false.
Proof.
  unfold lock_conflict. induction (map_to_list t) as [|kd l IH]; [done|].
  cbn. intros [H1 H2]%orb_false_elim. rewrite (IH H2), orb_false_r.
  unfold conflicts in *. cbn in H1.
  destruct (bool_decide (d_name kd.2 = name)); [discriminate|reflexivity].
Qed.

(** [Read] returns the bytes the file holds, or else an error. *)
Lemma Read_ok_content name w bytes w2 :
  Read name w = Ok (bytes, None) w2 →
  files (os_state w) !! name = Some bytes.
Proof.
  rewrite Read_run. cbn.
  destruct (acquire name O_RDONLY 0 (os_state w)) as [[fd|e] s] eqn:Ha; [|discriminate].
  apply acquire_ok in Ha as (_ & Hex & _ & -> & Hfl & Hfd & _).
  destruct (Hex eq_refl) as [old Hold]. cbn in Hfl, Hfd.
  rewrite Hold in Hfl. cbn in Hfl. rewrite insert_id in Hfl by done.
  rewrite (read_all_live _ s (mkDesc name O_RDONLY 0));
    [|cbn; rewrite Hfd; apply lookup_insert_eq|discriminate].
  destruct (next_fault s).1 as [e|]; [discriminate|]. cbn.
  rewrite Hfl, Hold. cbn. rewrite drop_0. by intros [= <- _].
Qed.

(** When the environment lets the open and the read through and no
    writer holds the lock, [Read] returns the bytes of the file. *)
Lemma Read_quiet name w data :
  files (os_state w) !! name = Some data →
  lock_conflict name false (fdtab (os_state w)) = false →
  quiet 2 (os_state w) = true →
  ∃ w2, Read name w = Ok (data, None) w2.
Proof.
  intros Hf Hl Hq. rewrite Read_run. cbn.
  set (id := fresh (dom (fdtab (os_state w)) ∪ retired (os_state w))).
  pose proof (quiet_S 1 _ (<[name := data]> (files (os_state w)))
           (<[id := mkDesc name O_RDONLY 0]> (fdtab (os_state w)))
           (retired (os_state w)) Hq) as [Hq0 Hq'].
  rewrite (acquire_succeeds name O_RDONLY 0 (os_state w) data) by done.
  cbn. fold id.
  pose proof (quiet_S 0 _ ∅ ∅ ∅ Hq') as [Hq1 _].
  rewrite (read_all_live _ _ (mkDesc name O_RDONLY 0));
    [|cbn; apply lookup_insert_eq|discriminate].
  change (has_flag O_TRUNC O_RDONLY) with false. cbv iota.
  rewrite Hq1. cbn.
  rewrite lookup_insert_eq. cbn. rewrite drop_0. eauto.
Qed.

(** [Read] hands the descriptor table back as it found it: no lock on
    any path is left behind, whatever failed on the way. *)
Lemma Read_lock_table name w :
  fdtab (os_state (world_of (Read name w))) = fdtab (os_state w).
Proof.
  rewrite Read_run. cbn.
  destruct (acquire name O_RDONLY 0 (os_state w)) as [[fd|e] s] eqn:Ha; cbn.
  - apply acquire_ok in Ha as (_ & _ & _ & -> & _ & Hfd & _). cbn in Hfd.
    rewrite (read_all_live _ s (mkDesc name O_RDONLY 0));
      [|cbn; rewrite Hfd; apply lookup_insert_eq|discriminate].
    destruct (next_fault s).1 as [e|]; cbn.
    + erewrite release_live
        by (cbn; rewrite next_fault_fdtab, Hfd; apply lookup_insert_eq).
      cbn. rewrite next_fault_fdtab, Hfd. apply delete_fresh_id.
    + erewrite release_live by (cbn; apply lookup_insert_eq).
      cbn. rewrite delete_insert_eq, Hfd. apply delete_fresh_id.
  - by apply acquire_fail_fdtab in Ha.
Qed.

(** *** Truncating and preserving opens *)

Lemma Create_truncates name w (h : loc) w1 :
  Create name w = Ok (inl h) w1 → files (os_state w1) !! name = Some [].
Proof.
  unfold Create. rewrite OpenFile_run. cbn.
  destruct (acquire name _ perm_0666 (os_state w)) as [[fd|e] s] eqn:Ha; [|discriminate].
  intros [= _ <-]. cbn.
  apply acquire_ok in Ha as (_ & _ & _ & _ & Hfl & _).
  rewrite Hfl. apply lookup_insert_eq.
Qed.

Lemma Edit_preserves name w (h : loc) w1 :
  Edit name w = Ok (inl h) w1 →
  files (os_state w1) =
  match files (os_state w) !! name with
  | Some _ => files (os_state w)
  | None => <[name := []]> (files (os_state w))
  end.
Proof.
  unfold Edit. rewrite OpenFile_run. cbn.
  destruct (acquire name _ perm_0666 (os_state w)) as [[fd|e] s] eqn:Ha; [|discriminate].
  intros [= _ <-]. cbn.
  apply acquire_ok in Ha as (_ & _ & _ & _ & Hfl & _).
  rewrite Hfl. cbn.
  destruct (files (os_state w) !! name) eqn:E; cbn; [|done].
  by apply insert_id.
Qed.

End SpecFSFacts.

(* ===================================================================== *)
(** ** Theorems about the package *)
(* ===================================================================== *)

Section Handles.
Context {P : Platform}.

Implicit Types (w : World) (f g : loc) (p : option osfile) (o : Op).

(** What a successful [OpenFile] has done. *)
Lemma OpenFile_ok name flag perm w f w1 :
  OpenFile name flag perm w = Ok (inl f) w1 →
  ∃ fd s,
    openFile name flag perm (os_state w) = (inl fd, s) ∧
    f = fresh (dom (heap w)) ∧
    w1 = mkWorld s (<[f := mkFile (Some fd) false]> (heap w))
           (<[f := LeakPanic]> (finalizers w))
           (history w ++ [EvAcquire name flag perm]).
Proof.
  rewrite OpenFile_run. cbn.
  destruct (openFile name flag perm (os_state w)) as [[fd|e] s]; [|discriminate].
  intros [= <- <-]. eauto.
Qed.

Lemma OpenFile_ok_handle name flag perm w f w1 :
  OpenFile name flag perm w = Ok (inl f) w1 →
  ∃ fd, armed f fd w1.
Proof.
  intros (fd & s & _ & _ & ->)%OpenFile_ok. exists fd.
  split; cbn; apply lookup_insert_eq.
Qed.

Lemma Close_open_heap f p w :
  heap w !! f = Some (mkFile p false) →
  heap (world_of (Close f w)) !! f = Some (mkFile p true) ∧
  finalizers (world_of (Close f w)) !! f = None.
Proof.
  intros H. rewrite (Close_open _ _ _ H). cbn.
  split; [apply lookup_insert_eq|apply lookup_delete_eq].
Qed.

(** C1. For every handle returned by a successful [OpenFile] (so also
    by [Open], [Create] and [Edit], which are calls of it), the first
    [Close] takes the handle from open to closed and returns what the
    release returned, nothing else; every later [Close], whatever calls
    of the package come in between, returns the already-closed error and
    changes nothing. That error is [os.ErrClosed] wrapped in a
    [PathError] with operation [close], which is the generic
    closed-descriptor error, so [errors.Is] with [os.ErrClosed] and the
    older unwrapping of package [os] both match it. *)
Theorem Close_first_then_AlreadyClosed name flag perm w f w1 :
  OpenFile name flag perm w = Ok (inl f) w1 →
  ∃ fd,
    heap w1 !! f = Some (mkFile (Some fd) false) ∧
    Close f w1 =
      Ok (closeFile (Some fd) (os_state w1)).1 (world_of (Close f w1)) ∧
    heap (world_of (Close f w1)) !! f = Some (mkFile (Some fd) true) ∧
    (∀ ops,
       Close f (run ops (world_of (Close f w1))) =
       Ok (Some (PathError "close" (os_Name fd) ErrClosed))
          (run ops (world_of (Close f w1)))) ∧
    PathError "close" (os_Name fd) ErrClosed = os_closed_error (os_Name fd) ∧
    errors_Is (PathError "close" (os_Name fd) ErrClosed) ErrClosed = true ∧
    underlyingError (PathError "close" (os_Name fd) ErrClosed) = ErrClosed.
Proof.
  intros Hopen. destruct (OpenFile_ok_handle _ _ _ _ _ _ Hopen) as (fd & Hh & _).
  exists fd. split; [done|].
  destruct (Close_open_heap _ _ _ Hh) as [Hc _].
  repeat split; try done.
  - rewrite (Close_open _ _ _ Hh). reflexivity.
  - intros ops. apply Close_closed. by apply run_closed.
Qed.

(** C2. [Write] and its two errors. When the open has succeeded the
    close is attempted whatever the copy did. If the copy fails, [Write]
    returns the copy's error, also when the close fails too; if the copy
    succeeds, [Write] returns what the close returned; and [Write]
    returns nil only when the open, the copy and the close have all
    succeeded. *)
Theorem Write_error_precedence name content perm w :
  let flag := Z.lor (Z.lor O_WRONLY O_CREATE) O_TRUNC in
  let res := returned (Write name content perm w) in
  let w' := world_of (Write name content perm w) in
  (∀ fd s, openFile name flag perm (os_state w) = (inl fd, s) →
     let cp := io_Copy (Some fd) content s in
     let cl := closeFile (Some fd) cp.2 in
     os_state w' = cl.2 ∧
     releases (fresh (dom (heap w))) (history w') =
       S (releases (fresh (dom (heap w))) (history w)) ∧
     (∀ e, cp.1.2 = Some e → res = Some (Some e)) ∧
     (cp.1.2 = None → res = Some cl.1)) ∧
  (res = Some None →
     ∃ fd s, openFile name flag perm (os_state w) = (inl fd, s) ∧
       (io_Copy (Some fd) content s).1.2 = None ∧
       (closeFile (Some fd) (io_Copy (Some fd) content s).2).1 = None).
Proof.
  cbn zeta. rewrite Write_run. cbn zeta.
  destruct (openFile name _ perm (os_state w)) as [[fd|e] s] eqn:E.
  - split.
    + intros fd' s' [= <- <-]. cbn. split; [done|]. split.
      * rewrite releases_app.
        rewrite (releases_pair _ (fresh (dom (heap w))) name).
        rewrite bool_decide_eq_true_2 by done. lia.
      * split; [intros e ->; done|intros ->; done].
    + cbn. intros [= H]. exists fd, s. split; [done|].
      destruct (io_Copy (Some fd) content s).1.2; [discriminate|done].
  - split; [intros ? ? [=]|]. cbn. discriminate.
Qed.

(** C6. The first [Close] of a handle takes its entry out of the
    finalizer table whatever [closeFile] returned, an error included.
    From then on, whatever calls of the package follow, the entry stays
    out, and when the runtime finds the handle unreachable it reclaims
    it without a panic. *)
Theorem Close_disarms_guard f p w :
  heap w !! f = Some (mkFile p false) →
  returned (Close f w) = Some (closeFile p (os_state w)).1 ∧
  ∀ ops,
    finalizers (run ops (world_of (Close f w))) !! f = None ∧
    returned (runtime_unreachable f (run ops (world_of (Close f w)))) = Some tt.
Proof.
  intros H. split.
  - rewrite (Close_open _ _ _ H). reflexivity.
  - intros ops.
    destruct (run_disarmed ops _ f p (Close_open_heap _ _ _ H)) as [_ Hz].
    split; [done|]. rewrite disarmed_silent by done. reflexivity.
Qed.

(** C8. The [closed] flag only goes from false to true. It is false in
    the handle a successful [OpenFile] returns, in every world, the one
    of a program that has opened nothing yet included. A handle whose
    flag is true is left exactly as it is by every sequence of calls. A
    call that takes the flag of a handle from false to true is a [Close]
    on that handle. And the first [Close] sets it whatever the release
    returned. *)
Theorem closed_is_monotonic w :
  (∀ name flag perm g w1,
     OpenFile name flag perm w = Ok (inl g) w1 →
     ∃ v1, heap w1 !! g = Some v1 ∧ closed v1 = false) ∧
  (∀ f v, heap w !! f = Some v →
     (closed v = true → ∀ ops, heap (run ops w) !! f = Some v) ∧
     (closed v = false →
        (∀ o v', heap (world_of (exec o w)) !! f = Some v' →
                 closed v' = true → o = CallClose f) ∧
        heap (world_of (Close f w)) !! f = Some (mkFile (osFile v) true))).
Proof.
  split.
  - intros name flag perm g w1 (fd & Hh & _)%OpenFile_ok_handle. eauto.
  - intros f v H. split.
    + intros Hc ops. destruct v as [p c]. cbn in Hc. subst c. by apply run_closed.
    + intros Hc. split.
      * intros o v' Hv' Hc'.
        destruct (Step_object _ _ _ _ _ (exec_Step o w) H) as [Hsame|(Ho & _)]; [|done].
        rewrite Hsame in Hv'. simplify_eq. congruence.
      * destruct v as [p c]. cbn in Hc. subst c. by apply Close_open_heap.
Qed.

(** C9. [Read] drops the error of its own [Close]. When the open has
    succeeded, [Read] returns what [ioutil.ReadAll] returned, whatever
    the release returns; so with a full read and a failing release the
    caller gets the bytes and a nil error. [Write] in the same situation
    returns the error of the release. *)
Theorem Read_discards_close_error name w fd s data s2 e :
  openFile name O_RDONLY 0 (os_state w) = (inl fd, s) →
  ioutil_ReadAll (Some fd) s = ((data, None), s2) →
  (closeFile (Some fd) s2).1 = Some e →
  returned (Read name w) = Some (data, None) ∧
  releases (fresh (dom (heap w))) (history (world_of (Read name w))) =
    S (releases (fresh (dom (heap w))) (history w)) ∧
  ∀ content perm fd' s',
    openFile name (Z.lor (Z.lor O_WRONLY O_CREATE) O_TRUNC) perm (os_state w)
      = (inl fd', s') →
    (io_Copy (Some fd') content s').1.2 = None →
    (closeFile (Some fd') (io_Copy (Some fd') content s').2).1 = Some e →
    returned (Write name content perm w) = Some (Some e).
Proof.
  intros Ho Hr Hc. split; [|split].
  - rewrite Read_run, Ho. cbn. rewrite Hr. reflexivity.
  - rewrite Read_run, Ho. cbn. rewrite releases_app.
    rewrite (releases_pair _ (fresh (dom (heap w))) name).
    rewrite bool_decide_eq_true_2 by done. lia.
  - intros content perm fd' s' Ho' Hcp Hcl.
    rewrite Write_run. cbv zeta. rewrite Ho'. cbn. rewrite Hcp, Hcl. reflexivity.
Qed.

(** C10. [closeFile] is called at most once for a handle. In a world
    whose history agrees with its flags, take an open handle: nothing
    has been released for it; its first [Close] calls [closeFile] once
    and leaves the handle closed, whatever [closeFile] returned; and
    after any further calls the handle is still closed, a [Close] on it
    returns the already-closed error and changes nothing, so the count
    stays at one. No handle ever has more than one release. *)
Theorem release_attempted_at_most_once ops w f fd :
  released_once w →
  heap w !! f = Some (mkFile (Some fd) false) →
  let w1 := world_of (Close f w) in
  let w2 := run ops w1 in
  releases f (history w) = 0%nat ∧
  returned (Close f w) = Some (closeFile (Some fd) (os_state w)).1 ∧
  heap w1 !! f = Some (mkFile (Some fd) true) ∧
  releases f (history w1) = 1%nat ∧
  heap w2 !! f = Some (mkFile (Some fd) true) ∧
  Close f w2 = Ok (Some (PathError "close" (os_Name fd) ErrClosed)) w2 ∧
  releases f (history w2) = 1%nat ∧
  ∀ g, (releases g (history w2) ≤ 1)%nat.
Proof.
  intros HW Hf. cbn zeta.
  destruct (Close_open_heap _ _ _ Hf) as [Hc _].
  assert (released_once (world_of (Close f w))) as HW1.
  { replace (world_of (Close f w)) with (world_of (exec (CallClose f) w))
      by apply world_of_then.
    eapply Step_released_once; [apply exec_Step|done]. }
  pose proof (run_released_once ops _ HW1) as HW2.
  pose proof (run_closed ops _ _ _ Hc) as Hc2.
  repeat split.
  - rewrite (HW f), Hf. reflexivity.
  - rewrite (Close_open _ _ _ Hf). reflexivity.
  - done.
  - rewrite (HW1 f), Hc. reflexivity.
  - done.
  - by apply Close_closed.
  - rewrite (HW2 f), Hc2. reflexivity.
  - intros g. rewrite (HW2 g).
    destruct (heap _ !! g) as [[? []]|]; cbn; lia.
Qed.

End Handles.

Section Convenience.
Context {P : Platform} {C : PrimitiveContract P}.

Implicit Types (w : World) (f g : loc).

(** [Read] always returns. *)
Lemma Read_returns name w : ∃ r w', Read name w = Ok r w'.
Proof.
  rewrite Read_run. cbv zeta.
  destruct (openFile name O_RDONLY 0 (os_state w)) as [[fd|e] s]; eauto.
Qed.

(** C3. [Read] closes the handle it opened before it returns, on every
    path. When the open succeeds the descriptor holds its lock; [Read]
    returns what [ioutil.ReadAll] returned, be it the bytes or a
    failure, and in both cases the last thing done to the platform is
    the release of that descriptor: the handle is closed, its guard is
    gone, and the descriptor no longer holds the lock. When the open
    fails, [Read] returns that error; nothing was released because
    nothing was acquired: the one new object has no descriptor and is
    not handed out, and the finalizer table is untouched. *)
Theorem Read_closes_on_every_path name w :
  let f := fresh (dom (heap w)) in
  let w' := world_of (Read name w) in
  match openFile name O_RDONLY 0 (os_state w) with
  | (inl fd, s) =>
      let rd := ioutil_ReadAll (Some fd) s in
      holds_lock fd s = true ∧
      Read name w = Ok rd.1 w' ∧
      os_state w' = (closeFile (Some fd) rd.2).2 ∧
      heap w' !! f = Some (mkFile (Some fd) true) ∧
      finalizers w' !! f = None ∧
      history w' = history w ++ [EvAcquire name O_RDONLY 0; EvRelease f] ∧
      holds_lock fd (os_state w') = false
  | (inr e, s) =>
      Read name w = Ok ([], Some e) w' ∧
      os_state w' = s ∧
      heap w' = <[f := mkFile None false]> (heap w) ∧
      finalizers w' = finalizers w ∧
      history w' = history w ++ [EvAcquire name O_RDONLY 0]
  end.
Proof.
  cbv zeta. rewrite Read_run. cbv zeta.
  destruct (openFile name O_RDONLY 0 (os_state w)) as [[fd|e] s] eqn:E; cbn.
  - repeat split.
    + eapply acquire_locks, E.
    + apply lookup_insert_eq.
    + apply lookup_delete_eq.
    + apply release_unlocks.
  - done.
Qed.

(** C5. The leak guard is armed on the path where [OpenFile] succeeds,
    and only there. On success the new handle is open, the runtime
    holds the panicking finalizer for it and for no other handle more
    than before, and as long as the handle has not been closed, the
    runtime finding it unreachable panics with the message that names
    the path that was opened: the text is "lockedfile.File ", the path,
    and " became unreachable without a call to Close". On failure the
    error of the primitive is returned as it is, no handle is returned,
    the finalizer table is unchanged, and the one new object has no
    descriptor. *)
Theorem OpenFile_arms_guard name flag perm w :
  let f := fresh (dom (heap w)) in
  let w' := world_of (OpenFile name flag perm w) in
  match openFile name flag perm (os_state w) with
  | (inl fd, s) =>
      OpenFile name flag perm w = Ok (inl f) w' ∧
      heap w' !! f = Some (mkFile (Some fd) false) ∧
      finalizers w' !! f = Some LeakPanic ∧
      (∀ g, g ≠ f → finalizers w' !! g = finalizers w !! g) ∧
      ∀ ops, CallClose f ∉ ops →
        runtime_unreachable f (run ops w') =
        Panic (String.append "lockedfile.File "
                 (String.append name
                    " became unreachable without a call to Close"))
              (run ops w')
  | (inr e, s) =>
      OpenFile name flag perm w = Ok (inr e) w' ∧
      os_state w' = s ∧
      finalizers w' = finalizers w ∧
      heap w' = <[f := mkFile None false]> (heap w)
  end.
Proof.
  cbv zeta. rewrite OpenFile_run. cbv zeta.
  destruct (openFile name flag perm (os_state w)) as [[fd|e] s] eqn:E; cbn.
  - assert (armed (fresh (dom (heap w))) fd
      (mkWorld s (<[fresh (dom (heap w)) := mkFile (Some fd) false]> (heap w))
         (<[fresh (dom (heap w)) := LeakPanic]> (finalizers w))
         (history w ++ [EvAcquire name flag perm]))) as Ha
      by (split; cbn; apply lookup_insert_eq).
    repeat split.
    + apply lookup_insert_eq.
    + apply lookup_insert_eq.
    + intros g Hg. by apply lookup_insert_ne.
    + intros ops Hops.
      rewrite (armed_fires _ fd) by by apply run_armed.
      rewrite (acquire_name _ _ _ _ _ _ E). reflexivity.
  - done.
Qed.

End Convenience.

Section NamedOpens.
Context {P : Platform}.

Lemma OpenFile_history name flag perm (w : World) :
  history (world_of (OpenFile name flag perm w)) =
  history w ++ [EvAcquire name flag perm].
Proof.
  rewrite OpenFile_run. cbv zeta.
  destruct (openFile name flag perm (os_state w)) as [[fd|e] s]; reflexivity.
Qed.

(** C7. The three named opens are [OpenFile] with fixed flags and
    permissions, and these are what reaches the primitive. [Open] passes
    read-only flags (no write access, no create, no truncate) and
    permission 0. [Create] passes read-write access with create and
    truncate and permission 0666. [Edit] passes read-write access with
    create, without truncate, and permission 0666. On the executable
    platform a successful [Create] leaves the file empty whatever it
    held, and a successful [Edit] leaves every file as it was when the
    file exists already. *)
Theorem named_opens_flags name (w : World) :
  let cflag := Z.lor (Z.lor O_RDWR O_CREATE) O_TRUNC in
  let eflag := Z.lor O_RDWR O_CREATE in
  (Open name w = OpenFile name O_RDONLY 0 w ∧
   history (world_of (Open name w)) = history w ++ [EvAcquire name O_RDONLY 0] ∧
   access_mode O_RDONLY = O_RDONLY ∧ wants_write O_RDONLY = false ∧
   has_flag O_CREATE O_RDONLY = false ∧ has_flag O_TRUNC O_RDONLY = false) ∧
  (Create name w = OpenFile name cflag perm_0666 w ∧
   history (world_of (Create name w)) =
     history w ++ [EvAcquire name cflag perm_0666] ∧
   access_mode cflag = O_RDWR ∧ wants_write cflag = true ∧
   has_flag O_CREATE cflag = true ∧ has_flag O_TRUNC cflag = true) ∧
  (Edit name w = OpenFile name eflag perm_0666 w ∧
   history (world_of (Edit name w)) =
     history w ++ [EvAcquire name eflag perm_0666] ∧
   access_mode eflag = O_RDWR ∧ wants_write eflag = true ∧
   has_flag O_CREATE eflag = true ∧ has_flag O_TRUNC eflag = false) ∧
  perm_0666 = 6 * 8 ^ 2 + 6 * 8 + 6 ∧
  ∀ (ws ws1 : @World SpecFS.platform) (h : loc),
    (Create name ws = Ok (inl h) ws1 →
     SpecFS.files (os_state ws1) !! name = Some []) ∧
    (∀ old, Edit name ws = Ok (inl h) ws1 →
            SpecFS.files (os_state ws) !! name = Some old →
            SpecFS.files (os_state ws1) = SpecFS.files (os_state ws) ∧
            SpecFS.files (os_state ws1) !! name = Some old).
Proof.
  cbv zeta. unfold Open, Create, Edit.
  rewrite !OpenFile_history.
  do 4 (split; [repeat split; reflexivity|]).
  intros ws ws1 h. split.
  - apply SpecFSFacts.Create_truncates.
  - intros old He%SpecFSFacts.Edit_preserves Hold.
    rewrite Hold in He. split; congruence.
Qed.

End NamedOpens.

(** C4. Writing and reading back, on the executable platform. After a
    [Write] that returned nil the file holds exactly the bytes of the
    content, whatever it held before; [Read] of the same path then always
    returns, a [Read] that returns a nil error returns exactly those
    bytes, and [Read] does return a nil error when the environment lets
    its open and its read through. *)
Theorem Write_then_Read_roundtrip name content perm
    (w w1 : @World SpecFS.platform) :
  Write name content perm w = Ok None w1 →
  SpecFS.files (os_state w1) !! name = Some (r_data content) ∧
  (∃ r w2, Read name w1 = Ok r w2) ∧
  (∀ bytes w2, Read name w1 = Ok (bytes, None) w2 → bytes = r_data content) ∧
  (SpecFS.quiet 2 (os_state w1) = true →
   ∃ w2, Read name w1 = Ok (r_data content, None) w2).
Proof.
  intros (_ & Hfl & Hfd & Hlock)%SpecFSFacts.Write_ok_state.
  assert (SpecFS.files (os_state w1) !! name = Some (r_data content)) as Hf
    by (rewrite Hfl; apply lookup_insert_eq).
  split; [done|]. split; [apply Read_returns|]. split.
  - intros bytes w2 Hr%SpecFSFacts.Read_ok_content. congruence.
  - intros Hq. apply SpecFSFacts.Read_quiet; [done| |done].
    rewrite Hfd. by apply SpecFSFacts.lock_conflict_shared.
Qed.

(* ===================================================================== *)
(** ** The theorems at work on concrete worlds *)
(* ===================================================================== *)

(** A program that has just started has called nothing yet. *)
Lemma released_once_start {P : Platform} (w : World) :
  heap w = ∅ → history w = [] → released_once w.
Proof. intros Hh Hy g. rewrite Hh, Hy, lookup_empty. reflexivity. Qed.

Lemma released_once_opened : released_once Demo.opened.
Proof.
  apply (run_released_once [CallOpen "a.txt"] Demo.second_fails).
  by apply released_once_start.
Qed.

Lemma Close_first_then_AlreadyClosed_witness :
  OpenFile "a.txt" O_RDONLY 0 Demo.second_fails = Ok (inl 1%positive) Demo.opened ∧
  ∃ fd,
    heap Demo.opened !! 1%positive = Some (mkFile (Some fd) false) ∧
    Close 1%positive Demo.opened =
      Ok (closeFile (Some fd) (os_state Demo.opened)).1
         (world_of (Close 1%positive Demo.opened)) ∧
    heap (world_of (Close 1%positive Demo.opened)) !! 1%positive =
      Some (mkFile (Some fd) true) ∧
    (∀ ops,
       Close 1%positive (run ops (world_of (Close 1%positive Demo.opened))) =
       Ok (Some (PathError "close" (os_Name fd) ErrClosed))
          (run ops (world_of (Close 1%positive Demo.opened)))) ∧
    PathError "close" (os_Name fd) ErrClosed = os_closed_error (os_Name fd) ∧
    errors_Is (PathError "close" (os_Name fd) ErrClosed) ErrClosed = true ∧
    underlyingError (PathError "close" (os_Name fd) ErrClosed) = ErrClosed.
Proof.
  split; [reflexivity|].
  apply (@Close_first_then_AlreadyClosed SpecFS.platform "a.txt" O_RDONLY 0 Demo.second_fails).
  reflexivity.
Defined.

Lemma Write_error_precedence_witness :
  openFile "a.txt" Demo.wflag 420 (os_state Demo.both_fail) =
    (inl Demo.a_txt, (openFile "a.txt" Demo.wflag 420 (os_state Demo.both_fail)).2) ∧
  returned (Write "a.txt" Demo.hello 420 Demo.both_fail) = Some (Some Demo.EIO) ∧
  returned (Write "a.txt" Demo.hello 420 Demo.third_fails) = Some (Some Demo.EIO) ∧
  returned (Write "a.txt" Demo.hello 420 Demo.calm) = Some None.
Proof.
  split; [reflexivity|]. split; [|split].
  - destruct (@Write_error_precedence SpecFS.platform "a.txt" Demo.hello 420 Demo.both_fail) as [H _].
    destruct (H Demo.a_txt _ eq_refl) as (_ & _ & Hcopy & _).
    apply Hcopy. reflexivity.
  - destruct (@Write_error_precedence SpecFS.platform "a.txt" Demo.hello 420 Demo.third_fails) as [H _].
    destruct (H Demo.a_txt _ eq_refl) as (_ & _ & _ & Hclose).
    rewrite Hclose; reflexivity.
  - destruct (@Write_error_precedence SpecFS.platform "a.txt" Demo.hello 420 Demo.calm) as [H _].
    destruct (H Demo.a_txt _ eq_refl) as (_ & _ & _ & Hclose).
    rewrite Hclose; reflexivity.
Defined.

Lemma Close_disarms_guard_witness :
  heap Demo.opened !! 1%positive = Some (mkFile (Some Demo.a_txt) false) ∧
  returned (Close 1%positive Demo.opened) = Some (Some Demo.EIO) ∧
  finalizers (world_of (Close 1%positive Demo.opened)) !! 1%positive = None.
Proof.
  assert (heap Demo.opened !! 1%positive = Some (mkFile (Some Demo.a_txt) false))
    as H by reflexivity.
  split; [exact H|].
  destruct (@Close_disarms_guard SpecFS.platform 1%positive (Some Demo.a_txt)
              Demo.opened H)
    as [Hr Hops].
  split; [exact Hr|]. exact (proj1 (Hops [])).
Defined.

Lemma closed_is_monotonic_witness :
  heap Demo.second_fails = ∅ ∧
  OpenFile "a.txt" O_RDONLY 0 Demo.second_fails = Ok (inl 1%positive) Demo.opened ∧
  (∃ v1, heap Demo.opened !! 1%positive = Some v1 ∧ closed v1 = false) ∧
  heap (world_of (Close 1%positive Demo.opened)) !! 1%positive =
    Some (mkFile (Some Demo.a_txt) true) ∧
  heap (run [CallClose 1%positive; CallRead "a.txt"; CallCreate "a.txt"]
          (world_of (Close 1%positive Demo.opened))) !! 1%positive =
    Some (mkFile (Some Demo.a_txt) true).
Proof.
  assert (OpenFile "a.txt" O_RDONLY 0 Demo.second_fails =
            Ok (inl 1%positive) Demo.opened) as Ho by reflexivity.
  assert (heap (world_of (Close 1%positive Demo.opened)) !! 1%positive =
            Some (mkFile (Some Demo.a_txt) true)) as H by reflexivity.
  split; [reflexivity|]. split; [exact Ho|]. split.
  - exact (proj1 (@closed_is_monotonic SpecFS.platform Demo.second_fails)
             "a.txt" O_RDONLY 0 1%positive Demo.opened Ho).
  - split; [exact H|].
    destruct (proj2 (@closed_is_monotonic SpecFS.platform
                       (world_of (Close 1%positive Demo.opened)))
                1%positive _ H) as [Hstay _].
    apply Hstay. reflexivity.
Defined.

Lemma Read_discards_close_error_witness :
  openFile "a.txt" O_RDONLY 0 (os_state Demo.third_fails) =
    (inl Demo.a_txt, (openFile "a.txt" O_RDONLY 0 (os_state Demo.third_fails)).2) ∧
  (closeFile (Some Demo.a_txt)
     (ioutil_ReadAll (Some Demo.a_txt)
        (openFile "a.txt" O_RDONLY 0 (os_state Demo.third_fails)).2).2).1 =
    Some Demo.EIO ∧
  returned (Read "a.txt" Demo.third_fails) = Some (SpecFS.bytes "old", None).
Proof.
  split; [reflexivity|]. split; [reflexivity|].
  refine (proj1 (@Read_discards_close_error SpecFS.platform "a.txt" Demo.third_fails Demo.a_txt
                   _ (SpecFS.bytes "old") _ Demo.EIO _ _ _));
    reflexivity.
Defined.

Lemma release_attempted_at_most_once_witness :
  released_once Demo.opened ∧
  heap Demo.opened !! 1%positive = Some (mkFile (Some Demo.a_txt) false) ∧
  returned (Close 1%positive Demo.opened) = Some (Some Demo.EIO) ∧
  releases 1%positive
    (history (run [CallClose 1%positive; CallClose 1%positive]
                (world_of (Close 1%positive Demo.opened)))) = 1%nat.
Proof.
  assert (heap Demo.opened !! 1%positive = Some (mkFile (Some Demo.a_txt) false))
    as H by reflexivity.
  split; [exact released_once_opened|]. split; [exact H|].
  destruct (@release_attempted_at_most_once SpecFS.platform
              [CallClose 1%positive; CallClose 1%positive]
              Demo.opened 1%positive Demo.a_txt released_once_opened H)
    as (_ & Hr & _ & _ & _ & _ & Hn & _).
  split; [exact Hr|exact Hn].
Defined.

Lemma Read_closes_on_every_path_witness :
  Read "a.txt" Demo.second_fails =
    Ok ([], Some Demo.EIO) (world_of (Read "a.txt" Demo.second_fails)) ∧
  heap (world_of (Read "a.txt" Demo.second_fails)) !! 1%positive =
    Some (mkFile (Some Demo.a_txt) true) ∧
  holds_lock Demo.a_txt (os_state (world_of (Read "a.txt" Demo.second_fails)))
    = false.
Proof.
  pose proof (@Read_closes_on_every_path SpecFS.platform SpecFSFacts.contract
                "a.txt" Demo.second_fails) as H.
  destruct H as (_ & Hr & _ & Hh & _ & _ & Hl).
  split; [exact Hr|]. split; [exact Hh|exact Hl].
Defined.

Lemma OpenFile_arms_guard_witness :
  OpenFile "a.txt" O_RDONLY 0 Demo.calm =
    Ok (inl 1%positive) (world_of (OpenFile "a.txt" O_RDONLY 0 Demo.calm)) ∧
  runtime_unreachable 1%positive
    (run [CallRead "a.txt"] (world_of (OpenFile "a.txt" O_RDONLY 0 Demo.calm))) =
    Panic "lockedfile.File a.txt became unreachable without a call to Close"
      (run [CallRead "a.txt"] (world_of (OpenFile "a.txt" O_RDONLY 0 Demo.calm))) ∧
  OpenFile "a.txt" O_RDONLY 0 Demo.open_fails =
    Ok (inr ErrPermission)
       (world_of (OpenFile "a.txt" O_RDONLY 0 Demo.open_fails)) ∧
  finalizers (world_of (OpenFile "a.txt" O_RDONLY 0 Demo.open_fails)) =
    finalizers Demo.open_fails.
Proof.
  pose proof (@OpenFile_arms_guard SpecFS.platform SpecFSFacts.contract
                "a.txt" O_RDONLY 0 Demo.calm) as H.
  destruct H as (Ho & _ & _ & _ & Hfire).
  pose proof (@OpenFile_arms_guard SpecFS.platform SpecFSFacts.contract
                "a.txt" O_RDONLY 0 Demo.open_fails) as H'.
  destruct H' as (Hf & _ & Hz & _).
  split; [exact Ho|]. split.
  - apply (Hfire [CallRead "a.txt"]).
    intros Hin. apply list_elem_of_In in Hin. destruct Hin as [Hin|[]].
    discriminate Hin.
  - split; [exact Hf|exact Hz].
Defined.

Lemma named_opens_flags_witness :
  Create "a.txt" Demo.calm =
    Ok (inl 1%positive) (world_of (Create "a.txt" Demo.calm)) ∧
  SpecFS.files (os_state (world_of (Create "a.txt" Demo.calm))) !! "a.txt"
    = Some [] ∧
  Edit "a.txt" Demo.calm =
    Ok (inl 1%positive) (world_of (Edit "a.txt" Demo.calm)) ∧
  SpecFS.files (os_state Demo.calm) !! "a.txt" = Some (SpecFS.bytes "old") ∧
  SpecFS.files (os_state (world_of (Edit "a.txt" Demo.calm))) !! "a.txt"
    = Some (SpecFS.bytes "old").
Proof.
  assert (Create "a.txt" Demo.calm =
            Ok (inl 1%positive) (world_of (Create "a.txt" Demo.calm))) as Hc
    by reflexivity.
  assert (Edit "a.txt" Demo.calm =
            Ok (inl 1%positive) (world_of (Edit "a.txt" Demo.calm))) as He
    by reflexivity.
  assert (SpecFS.files (os_state Demo.calm) !! "a.txt" = Some (SpecFS.bytes "old"))
    as Hold by reflexivity.
  destruct (@named_opens_flags SpecFS.platform "a.txt" Demo.calm)
    as (_ & _ & _ & _ & Hfs).
  split; [exact Hc|]. split.
  - exact (proj1 (Hfs Demo.calm _ 1%positive) Hc).
  - split; [exact He|]. split; [exact Hold|].
    exact (proj2 (proj2 (Hfs Demo.calm _ 1%positive) _ He Hold)).
Defined.

Lemma Write_then_Read_roundtrip_witness :
  Write "a.txt" Demo.hello 420 Demo.calm =
    Ok None (world_of (Write "a.txt" Demo.hello 420 Demo.calm)) ∧
  SpecFS.files (os_state (world_of (Write "a.txt" Demo.hello 420 Demo.calm)))
    !! "a.txt" = Some (SpecFS.bytes "hello") ∧
  ∃ w2, Read "a.txt" (world_of (Write "a.txt" Demo.hello 420 Demo.calm)) =
        Ok (SpecFS.bytes "hello", None) w2.
Proof.
  assert (Write "a.txt" Demo.hello 420 Demo.calm =
            Ok None (world_of (Write "a.txt" Demo.hello 420 Demo.calm))) as H
    by reflexivity.
  split; [exact H|].
  destruct (Write_then_Read_roundtrip "a.txt" Demo.hello 420 Demo.calm _ H)
    as (Hf & _ & _ & Hq).
  split; [exact Hf|]. apply Hq. reflexivity.
Defined.

(* ===================================================================== *)
(** ** Further properties of the package *)
(* ===================================================================== *)

Section Further.
Context {P : Platform}.

Implicit Types (w : World) (f g : loc) (p : option osfile) (o : Op).

(** X1. When its open fails, [Write] returns the error of the primitive
    as it is and does nothing else: the content is not read, nothing is
    released, no guard is armed, and the platform is left as the failed
    open left it. *)
Theorem Write_open_failure name content perm w e s :
  openFile name (Z.lor (Z.lor O_WRONLY O_CREATE) O_TRUNC) perm (os_state w)
    = (inr e, s) →
  let w' := world_of (Write name content perm w) in
  Write name content perm w = Ok (Some e) w' ∧
  os_state w' = s ∧
  finalizers w' = finalizers w ∧
  heap w' = <[fresh (dom (heap w)) := mkFile None false]> (heap w) ∧
  history w' = history w ++
    [EvAcquire name (Z.lor (Z.lor O_WRONLY O_CREATE) O_TRUNC) perm].
Proof.
  intros Ho. cbv zeta. rewrite Write_run. cbv zeta. rewrite Ho. done.
Qed.

(** X3. [Close] touches the handle it is called on and no other: every
    other object and every other entry of the finalizer table is what it
    was. *)
Theorem Close_touches_only_its_handle f g w :
  g ≠ f →
  heap (world_of (Close f w)) !! g = heap w !! g ∧
  finalizers (world_of (Close f w)) !! g = finalizers w !! g.
Proof.
  intros Hne. destruct (heap w !! f) as [[p [|]]|] eqn:E.
  - rewrite Close_noop by (intros q; rewrite E; discriminate). done.
  - rewrite (Close_open _ _ _ E). cbn.
    by rewrite lookup_insert_ne, lookup_delete_ne.
  - rewrite Close_noop by (intros q; rewrite E; discriminate). done.
Qed.

(** X4. A call other than [Close] ([OpenFile], [Open], [Create], [Edit],
    [Read], [Write]) works on an object of its own at a fresh address:
    every handle that exists keeps its descriptor, its flag and its entry
    in the finalizer table, and nothing is released for it. *)
Theorem other_calls_leave_handles_alone o w g v :
  (∀ f, o ≠ CallClose f) →
  heap w !! g = Some v →
  let w' := world_of (exec o w) in
  heap w' !! g = Some v ∧
  finalizers w' !! g = finalizers w !! g ∧
  releases g (history w') = releases g (history w) ∧
  g ≠ fresh (dom (heap w)).
Proof.
  intros Ho Hg. cbv zeta.
  assert (g ≠ fresh (dom (heap w))) as Hne
    by (intros ->; by rewrite fresh_heap in Hg).
  destruct (exec_Step o w) as [o w w' v' evs _ Hh Hfz Hhist Hev|f w _|f p w w' _ _ _ _ _].
  - repeat split; [|by apply Hfz| |done].
    + by rewrite Hh, lookup_insert_ne.
    + rewrite Hhist, releases_app, Hev.
      rewrite bool_decide_eq_false_2 by done. cbn. lia.
  - by destruct (Ho f).
  - by destruct (Ho f).
Qed.

(** X10. [Close] is idempotent on the world: a second [Close] on the same
    handle, whatever the handle is, leaves the world the first one
    left. *)
Theorem Close_idempotent f w :
  world_of (Close f (world_of (Close f w))) = world_of (Close f w).
Proof.
  apply Close_noop. intros q.
  destruct (heap w !! f) as [[p [|]]|] eqn:E.
  - rewrite Close_noop by (intros q'; rewrite E; discriminate).
    rewrite E. discriminate.
  - rewrite (Close_open _ _ _ E). cbn. rewrite lookup_insert_eq. discriminate.
  - rewrite Close_noop by (intros q'; rewrite E; discriminate).
    rewrite E. discriminate.
Qed.

(** X8. The descriptor that [Close] hands to [closeFile] is the one that
    [openFile] returned for this handle, whatever calls of the package
    were made in between. *)
Theorem Close_releases_what_was_opened name flag perm w fd s ops :
  openFile name flag perm (os_state w) = (inl fd, s) →
  CallClose (fresh (dom (heap w))) ∉ ops →
  let f := fresh (dom (heap w)) in
  let w2 := run ops (world_of (OpenFile name flag perm w)) in
  OpenFile name flag perm w = Ok (inl f) (world_of (OpenFile name flag perm w)) ∧
  Close f w2 =
    Ok (closeFile (Some fd) (os_state w2)).1 (world_of (Close f w2)) ∧
  os_state (world_of (Close f w2)) = (closeFile (Some fd) (os_state w2)).2.
Proof.
  intros Ho Hops. cbv zeta.
  assert (armed (fresh (dom (heap w))) fd (world_of (OpenFile name flag perm w)))
    as Ha.
  { rewrite OpenFile_run. cbv zeta. rewrite Ho. split; cbn; apply lookup_insert_eq. }
  destruct (run_armed ops _ _ _ Hops Ha) as [Hh _].
  split; [|split].
  - rewrite OpenFile_run. cbv zeta. rewrite Ho. reflexivity.
  - rewrite (Close_open _ _ _ Hh). reflexivity.
  - rewrite (Close_open _ _ _ Hh). reflexivity.
Qed.

(** *** The finalizer table in reachable worlds *)

Lemma guard_consistent_update w w' f v :
  guard_consistent w →
  heap w' = <[f := v]> (heap w) →
  finalizers w' !! f = guarded v →
  (∀ g, g ≠ f → finalizers w' !! g = finalizers w !! g) →
  guard_consistent w'.
Proof.
  intros HG Hh Hf Hz g. rewrite Hh.
  destruct (decide (g = f)) as [->|Hne].
  - by rewrite lookup_insert_eq.
  - rewrite lookup_insert_ne by done. rewrite Hz by done. apply HG.
Qed.

Lemma fresh_unguarded w :
  guard_consistent w → finalizers w !! fresh (dom (heap w)) = None.
Proof. intros HG. by rewrite HG, fresh_heap. Qed.

Lemma OpenFile_guard_consistent name flag perm w :
  guard_consistent w →
  guard_consistent (world_of (OpenFile name flag perm w)).
Proof.
  intros HG. rewrite OpenFile_run. cbv zeta.
  destruct (openFile name flag perm (os_state w)) as [[fd|e] s]; cbn.
  - eapply guard_consistent_update; [done|reflexivity|..]; cbn.
    + apply lookup_insert_eq.
    + intros g Hg. by apply lookup_insert_ne.
  - eapply guard_consistent_update; [done|reflexivity|..]; cbn.
    + by apply fresh_unguarded.
    + done.
Qed.

Lemma exec_guard_consistent o w :
  guard_consistent w → guard_consistent (world_of (exec o w)).
Proof.
  intros HG. destruct o; unfold exec; rewrite world_of_then;
    try (by apply OpenFile_guard_consistent).
  - destruct (heap w !! f) as [[p [|]]|] eqn:E.
    + by rewrite Close_noop by (intros q; rewrite E; discriminate).
    + rewrite (Close_open _ _ _ E).
      eapply guard_consistent_update; [done|reflexivity|..]; cbn.
      * rewrite lookup_delete_eq. by destruct p.
      * intros g Hg. by apply lookup_delete_ne.
    + by rewrite Close_noop by (intros q; rewrite E; discriminate).
  - rewrite Read_run. cbv zeta.
    destruct (openFile name O_RDONLY 0 (os_state w)) as [[fd|e] s]; cbn.
    + eapply guard_consistent_update; [done|reflexivity|..]; cbn.
      * apply lookup_delete_eq.
      * intros g Hg. by apply lookup_delete_ne.
    + eapply guard_consistent_update; [done|reflexivity|..]; cbn.
      * by apply fresh_unguarded.
      * done.
  - rewrite Write_run. cbv zeta.
    destruct (openFile name _ perm (os_state w)) as [[fd|e] s]; cbn.
    + eapply guard_consistent_update; [done|reflexivity|..]; cbn.
      * apply lookup_delete_eq.
      * intros g Hg. by apply lookup_delete_ne.
    + eapply guard_consistent_update; [done|reflexivity|..]; cbn.
      * by apply fresh_unguarded.
      * done.
Qed.

(** X5. In every world a program reaches by calls of the package that
    have returned, the leak guard fires for exactly the handles that are
    open: when the runtime finds an open handle unreachable it panics
    with the text "lockedfile.File ", the name of the handle's file, and
    " became unreachable without a call to Close"; and it reclaims every
    other object (a closed handle, the object of a failed open, the
    handle of a [Read] or a [Write] that has returned) without a panic.
    A [Write] whose content source panics or is nil does not return and
    is not among the calls of [Op]. *)
Theorem leak_guard_fires_iff_open ops w0 f :
  heap w0 = ∅ → finalizers w0 = ∅ →
  let w := run ops w0 in
  match heap w !! f with
  | Some v =>
      match osFile v, closed v with
      | Some fd, false =>
          runtime_unreachable f w =
          Panic (String.append "lockedfile.File "
                   (String.append (os_Name fd)
                      " became unreachable without a call to Close")) w
      | _, _ => returned (runtime_unreachable f w) = Some tt
      end
  | None => returned (runtime_unreachable f w) = Some tt
  end.
Proof.
  intros Hh Hz. cbv zeta.
  assert (guard_consistent (run ops w0)) as HG.
  { apply (run_invariant guard_consistent); [apply exec_guard_consistent|].
    intros g. by rewrite Hh, Hz, !lookup_empty. }
  specialize (HG f).
  destruct (heap (run ops w0) !! f) as [[[fd|] [|]]|] eqn:E; cbn in *;
    try (rewrite disarmed_silent by done; reflexivity).
  exact (armed_fires f fd (run ops w0) (conj E HG)).
Qed.

(** X9. In every world a program reaches by calls of the package,
    [closeFile] has been called exactly once for each handle that is
    closed and never for a handle that is open or for an address that is
    no handle. *)
Theorem reachable_released_once ops w0 g :
  heap w0 = ∅ → history w0 = [] →
  releases g (history (run ops w0)) =
  match heap (run ops w0) !! g with
  | Some v => if closed v then 1%nat else 0%nat
  | None => 0%nat
  end.
Proof.
  intros Hh Hy. apply run_released_once.
  intros g'. rewrite Hh, Hy, lookup_empty. reflexivity.
Qed.

End Further.

Section FurtherContract.
Context {P : Platform} {C : PrimitiveContract P}.

(** X2. [Write] closes the handle it opened before it returns, also when
    the copy fails: the last thing done to the platform is the release of
    that descriptor, the handle is closed, no guard is left for it, no
    other handle was released, and the descriptor no longer holds the
    lock it held during the copy. *)
Theorem Write_closes_on_every_path name content perm (w : World) fd s :
  openFile name (Z.lor (Z.lor O_WRONLY O_CREATE) O_TRUNC) perm (os_state w)
    = (inl fd, s) →
  let f := fresh (dom (heap w)) in
  let w' := world_of (Write name content perm w) in
  holds_lock fd s = true ∧
  os_state w' = (closeFile (Some fd) (io_Copy (Some fd) content s).2).2 ∧
  heap w' !! f = Some (mkFile (Some fd) true) ∧
  finalizers w' !! f = None ∧
  history w' = history w ++
    [EvAcquire name (Z.lor (Z.lor O_WRONLY O_CREATE) O_TRUNC) perm; EvRelease f] ∧
  holds_lock fd (os_state w') = false.
Proof.
  intros Ho. cbv zeta. rewrite Write_run. cbv zeta. rewrite Ho. cbn.
  repeat split.
  - eapply acquire_locks, Ho.
  - apply lookup_insert_eq.
  - apply lookup_delete_eq.
  - apply release_unlocks.
Qed.

End FurtherContract.

Section NoOpenHandleLeft.
Context {P : Platform}.

Lemma insert_fresh_not_open (w : World) v g fd :
  guarded v = None →
  <[fresh (dom (heap w)) := v]> (heap w) !! g = Some (mkFile (Some fd) false) ↔
  heap w !! g = Some (mkFile (Some fd) false).
Proof.
  intros Hv. destruct (decide (g = fresh (dom (heap w)))) as [->|Hne].
  - rewrite lookup_insert_eq, fresh_heap. split; [|discriminate].
    intros [= ->]. discriminate.
  - by rewrite lookup_insert_ne.
Qed.

(** X11. [Read] and [Write] leave no open handle behind: after either of
    them, on every path, the open handles are exactly the ones that were
    open before. *)
Theorem Read_Write_leave_no_open_handle name content perm (w : World) g fd :
  (heap (world_of (Read name w)) !! g = Some (mkFile (Some fd) false) ↔
   heap w !! g = Some (mkFile (Some fd) false)) ∧
  (heap (world_of (Write name content perm w)) !! g = Some (mkFile (Some fd) false) ↔
   heap w !! g = Some (mkFile (Some fd) false)).
Proof.
  split.
  - rewrite Read_run. cbv zeta.
    destruct (openFile name O_RDONLY 0 (os_state w)) as [[fd'|e] s]; cbn;
      by apply insert_fresh_not_open.
  - rewrite Write_run. cbv zeta.
    destruct (openFile name _ perm (os_state w)) as [[fd'|e] s]; cbn;
      by apply insert_fresh_not_open.
Qed.

End NoOpenHandleLeft.

(** *** The further properties on concrete worlds *)

Lemma Write_open_failure_witness :
  openFile "a.txt" Demo.wflag 420 (os_state Demo.open_fails) =
    (inr ErrPermission,
     (openFile "a.txt" Demo.wflag 420 (os_state Demo.open_fails)).2) ∧
  Write "a.txt" Demo.hello 420 Demo.open_fails =
    Ok (Some ErrPermission) (world_of (Write "a.txt" Demo.hello 420 Demo.open_fails)) ∧
  finalizers (world_of (Write "a.txt" Demo.hello 420 Demo.open_fails)) =
    finalizers Demo.open_fails.
Proof.
  split; [reflexivity|].
  destruct (@Write_open_failure SpecFS.platform "a.txt" Demo.hello 420
              Demo.open_fails ErrPermission _ eq_refl) as (Hr & _ & Hz & _).
  split; [exact Hr|exact Hz].
Defined.

Lemma Write_closes_on_every_path_witness :
  openFile "a.txt" Demo.wflag 420 (os_state Demo.second_fails) =
    (inl Demo.a_txt,
     (openFile "a.txt" Demo.wflag 420 (os_state Demo.second_fails)).2) ∧
  returned (Write "a.txt" Demo.hello 420 Demo.second_fails) = Some (Some Demo.EIO) ∧
  heap (world_of (Write "a.txt" Demo.hello 420 Demo.second_fails)) !! 1%positive =
    Some (mkFile (Some Demo.a_txt) true) ∧
  holds_lock Demo.a_txt
    (os_state (world_of (Write "a.txt" Demo.hello 420 Demo.second_fails))) = false.
Proof.
  split; [reflexivity|]. split; [reflexivity|].
  destruct (@Write_closes_on_every_path SpecFS.platform SpecFSFacts.contract
              "a.txt" Demo.hello 420 Demo.second_fails Demo.a_txt _ eq_refl)
    as (_ & _ & Hh & _ & _ & Hl).
  split; [exact Hh|exact Hl].
Defined.

Lemma Close_touches_only_its_handle_witness :
  2%positive ≠ 1%positive ∧
  heap (world_of (Close 1%positive (world_of (Open "a.txt" Demo.opened))))
    !! 2%positive =
  heap (world_of (Open "a.txt" Demo.opened)) !! 2%positive.
Proof.
  assert (2%positive ≠ 1%positive) as Hne by discriminate.
  split; [exact Hne|].
  exact (proj1 (@Close_touches_only_its_handle SpecFS.platform 1%positive
                  2%positive (world_of (Open "a.txt" Demo.opened)) Hne)).
Defined.

Lemma other_calls_leave_handles_alone_witness :
  heap Demo.opened !! 1%positive = Some (mkFile (Some Demo.a_txt) false) ∧
  heap (world_of (exec (CallWrite "a.txt" Demo.hello 420) Demo.opened))
    !! 1%positive = Some (mkFile (Some Demo.a_txt) false).
Proof.
  assert (heap Demo.opened !! 1%positive = Some (mkFile (Some Demo.a_txt) false))
    as H by reflexivity.
  split; [exact H|].
  refine (proj1 (@other_calls_leave_handles_alone SpecFS.platform
                   (CallWrite "a.txt" Demo.hello 420) Demo.opened 1%positive _ _ H)).
  intros f. discriminate.
Defined.

Lemma Close_releases_what_was_opened_witness :
  openFile "a.txt" O_RDONLY 0 (os_state Demo.second_fails) =
    (inl Demo.a_txt,
     (openFile "a.txt" O_RDONLY 0 (os_state Demo.second_fails)).2) ∧
  Close 1%positive
    (run [CallRead "a.txt"] (world_of (OpenFile "a.txt" O_RDONLY 0 Demo.second_fails))) =
  Ok (closeFile (Some Demo.a_txt)
        (os_state (run [CallRead "a.txt"]
           (world_of (OpenFile "a.txt" O_RDONLY 0 Demo.second_fails))))).1
     (world_of (Close 1%positive
        (run [CallRead "a.txt"]
           (world_of (OpenFile "a.txt" O_RDONLY 0 Demo.second_fails))))).
Proof.
  split; [reflexivity|].
  refine (proj1 (proj2 (@Close_releases_what_was_opened SpecFS.platform
            "a.txt" O_RDONLY 0 Demo.second_fails Demo.a_txt _
            [CallRead "a.txt"] eq_refl _))).
  intros Hin. apply list_elem_of_In in Hin. destruct Hin as [Hin|[]].
  discriminate Hin.
Defined.

Lemma leak_guard_fires_iff_open_witness :
  heap Demo.calm = ∅ ∧ finalizers Demo.calm = ∅ ∧
  runtime_unreachable 1%positive
    (run [CallOpen "a.txt"; CallRead "a.txt"] Demo.calm) =
  Panic "lockedfile.File a.txt became unreachable without a call to Close"
    (run [CallOpen "a.txt"; CallRead "a.txt"] Demo.calm) ∧
  returned (runtime_unreachable 2%positive
    (run [CallOpen "a.txt"; CallRead "a.txt"] Demo.calm)) = Some tt.
Proof.
  split; [reflexivity|]. split; [reflexivity|]. split.
  - exact (@leak_guard_fires_iff_open SpecFS.platform
             [CallOpen "a.txt"; CallRead "a.txt"] Demo.calm 1%positive
             eq_refl eq_refl).
  - exact (@leak_guard_fires_iff_open SpecFS.platform
             [CallOpen "a.txt"; CallRead "a.txt"] Demo.calm 2%positive
             eq_refl eq_refl).
Defined.

Lemma reachable_released_once_witness :
  heap Demo.calm = ∅ ∧ history Demo.calm = [] ∧
  releases 2%positive
    (history (run [CallOpen "a.txt"; CallWrite "b.txt" Demo.hello 420;
                   CallClose 2%positive] Demo.calm)) = 1%nat ∧
  releases 1%positive
    (history (run [CallOpen "a.txt"; CallWrite "b.txt" Demo.hello 420;
                   CallClose 2%positive] Demo.calm)) = 0%nat.
Proof.
  split; [reflexivity|]. split; [reflexivity|]. split.
  - exact (@reachable_released_once SpecFS.platform
             [CallOpen "a.txt"; CallWrite "b.txt" Demo.hello 420;
              CallClose 2%positive] Demo.calm 2%positive eq_refl eq_refl).
  - exact (@reachable_released_once SpecFS.platform
             [CallOpen "a.txt"; CallWrite "b.txt" Demo.hello 420;
              CallClose 2%positive] Demo.calm 1%positive eq_refl eq_refl).
Defined.
